(** * RuleSetCompiler: condition algebra, rule compiler and rule tree executor

    A shallow embedding of [lib/rules/RuleSetCompiler.js] and the properties
    of its condition combinators, of [compileRule] and of [execRule]/[exec].

    Modelling conventions.
    - JavaScript values that occur in an input record ([EffectData]) are the
      inductive [value]; an object is its own properties (an association
      list, in enumeration order) together with its prototype.
    - User configuration (raw rules and raw conditions) is the inductive
      [raw]; functions and regular expressions are carried as the total
      functions they denote.
    - Callbacks ([condition.fn], generated effects, condition functions) are
      taken as total functions, as their JSDoc types say.  [execRule] records
      each call it makes in an evaluation trace next to the [effects] array,
      so that evaluation order and short-circuiting can be stated.
    - [throw this.error(path, value, message)] becomes the [Err] result
      carrying the three arguments of [error] when the value has a string
      conversion, and the [Raise] result when the template literal of
      [error] throws instead of building the message. *)

From Stdlib Require Import List String Ascii Bool Arith ZArith Lia.
From Stdlib Require Import DecimalString.
Import ListNotations.
Local Open Scope string_scope.
Local Open Scope list_scope.

Set Implicit Arguments.
#[local] Set Warnings "-register-all".

(* ================================================================== *)
(** ** JavaScript values of an input record *)

Module JS.

(** A value of the input record.  [VFun] is an opaque function value (for
    instance a method inherited from a prototype); [Obj own proto] is an
    object with its own properties and its prototype ([None] for a [null]
    prototype). *)
Inductive value : Type :=
| VUndefined
| VNull
| VBool (b : bool)
| VNum (n : Z)
| VStr (s : string)
| VFun (name : string)
| VObj (o : obj)
with obj : Type :=
| Obj (own : list (string * value)) (proto : option obj).

Definition own_props (o : obj) : list (string * value) :=
  match o with Obj own _ => own end.

Definition proto_of (o : obj) : option obj :=
  match o with Obj _ proto => proto end.

(** [x !== undefined] *)
Definition is_defined (v : value) : bool :=
  match v with VUndefined => false | _ => true end.

(** ToBoolean: the values that are truthy. *)
Definition truthy (v : value) : bool :=
  match v with
  | VUndefined | VNull => false
  | VBool b => b
  | VNum n => negb (Z.eqb n 0)
  | VStr s => negb (String.eqb s "")
  | VFun _ | VObj _ => true
  end.

(** [typeof v === "object"] *)
Definition typeof_object (v : value) : bool :=
  match v with VNull | VObj _ => true | _ => false end.

Fixpoint assoc {A : Type} (k : string) (l : list (string * A)) : option A :=
  match l with
  | [] => None
  | (k', a) :: rest => if String.eqb k k' then Some a else assoc k rest
  end.

(** [Object.prototype.hasOwnProperty.call(v, k)], for the values the
    executor calls it on (a truthy value of type object). *)
Definition hasOwnProperty (v : value) (k : string) : bool :=
  match v with
  | VObj o => match assoc k (own_props o) with Some _ => true | None => false end
  | _ => false
  end.

(** [k in o]: an own property or one of the prototype chain. *)
Fixpoint has_property (k : string) (o : obj) : bool :=
  match o with
  | Obj own proto =>
      match assoc k own with
      | Some _ => true
      | None => match proto with Some p => has_property k p | None => false end
      end
  end.

(** [o[k]]: the nearest property of that name on the prototype chain. *)
Fixpoint get (o : obj) (k : string) : value :=
  match o with
  | Obj own proto =>
      match assoc k own with
      | Some v => v
      | None => match proto with Some p => get p k | None => VUndefined end
      end
  end.

(** [v[k]] for a value that is an object. *)
Definition member (v : value) (k : string) : value :=
  match v with VObj o => get o k | _ => VUndefined end.

End JS.
Export JS.

(* ================================================================== *)
(** ** Compiled rules *)

(** [RuleCondition.property]: a string, or an array of strings. *)
Inductive PropertyPath : Type :=
| Single (p : string)
| Multi (p : list string).

(** [Condition]: [{ matchWhenEmpty, fn }]. *)
Record Condition : Type := mkCondition {
  cond_matchWhenEmpty : bool;
  cond_fn : value -> bool
}.

(** [RuleCondition]: [{ property, matchWhenEmpty, fn }]. *)
Record RuleCondition : Type := mkRuleCondition {
  property : PropertyPath;
  matchWhenEmpty : bool;
  fn : value -> bool
}.

(** [Effect]: [{ type, value }]. *)
Record Effect : Type := mkEffect {
  effect_type : string;
  effect_value : value
}.

(** An entry of [CompiledRule.effects]: an effect, or a function from the
    input record to effects ([typeof effect === "function"]). *)
Inductive EffectEntry : Type :=
| Static (e : Effect)
| Generated (g : obj -> list Effect).

(** [CompiledRule]; [rules] and [oneOf] are [undefined] or an array. *)
Inductive CompiledRule : Type :=
| mkCompiledRule (conditions : list RuleCondition)
                 (effects : list EffectEntry)
                 (rules : option (list CompiledRule))
                 (oneOf : option (list CompiledRule)).

Definition conditions (r : CompiledRule) : list RuleCondition :=
  match r with mkCompiledRule c _ _ _ => c end.
Definition effects (r : CompiledRule) : list EffectEntry :=
  match r with mkCompiledRule _ e _ _ => e end.
Definition rules (r : CompiledRule) : option (list CompiledRule) :=
  match r with mkCompiledRule _ _ rs _ => rs end.
Definition oneOf (r : CompiledRule) : option (list CompiledRule) :=
  match r with mkCompiledRule _ _ _ o => o end.

(* ================================================================== *)
(** ** The rule tree executor *)

(** What [execRule] does that a caller can observe besides the effects it
    pushes: it is entered on a rule, it calls a condition's [fn] on a value,
    it calls a generated effect on the input record. *)
Inductive event : Type :=
| Enter (rule : CompiledRule)
| Test (c : RuleCondition) (v : value)
| Generate (g : obj -> list Effect).

(** The [effects] array that [execRule] pushes to, and the trace so far. *)
Record store : Type := mkStore {
  outEffects : list Effect;
  trace : list event
}.

Definition empty_store : store := mkStore [] [].

Definition push (e : Effect) (st : store) : store :=
  mkStore (outEffects st ++ [e]) (trace st).

Definition push_all (es : list Effect) (st : store) : store :=
  mkStore (outEffects st ++ es) (trace st).

Definition record (ev : event) (st : store) : store :=
  mkStore (outEffects st) (trace st ++ [ev]).

Section Executor.

Variable data : obj.

(** The walk of an array property: [current] starts as [data]; a step needs
    a truthy [current] of type object that has the segment as its own
    property, otherwise [current] becomes [undefined] and the walk stops. *)
Fixpoint walk (p : list string) (current : value) : value :=
  match p with
  | [] => current
  | subProperty :: rest =>
      if truthy current && typeof_object current
         && hasOwnProperty current subProperty
      then walk rest (member current subProperty)
      else VUndefined
  end.

(** The value a condition is tested on: [Some v] when the property resolves
    to a value that is not [undefined], [None] when the code falls through
    to the [matchWhenEmpty] test. *)
Definition resolve (p : PropertyPath) : option value :=
  match p with
  | Multi path =>
      let current := walk path (VObj data) in
      if is_defined current then Some current else None
  | Single name =>
      if has_property name data then
        let v := get data name in
        if is_defined v then Some v else None
      else None
  end.

(** The loop over [rule.conditions]: [false] is the early [return false]. *)
Fixpoint eval_conditions (conds : list RuleCondition) (st : store)
  : bool * store :=
  match conds with
  | [] => (true, st)
  | condition :: rest =>
      match resolve (property condition) with
      | Some v =>
          let st' := record (Test condition v) st in
          if fn condition v then eval_conditions rest st' else (false, st')
      | None =>
          if matchWhenEmpty condition then eval_conditions rest st
          else (false, st)
      end
  end.

(** The loop over [rule.effects]. *)
Fixpoint push_effects (effs : list EffectEntry) (st : store) : store :=
  match effs with
  | [] => st
  | Generated g :: rest =>
      push_effects rest (push_all (g data) (record (Generate g) st))
  | Static e :: rest => push_effects rest (push e st)
  end.

(** [for (const childRule of rule.rules) execRule(data, childRule, effects)]
    and the loop of [exec]: every rule is executed, its result dropped. *)
Definition exec_all (execRule : CompiledRule -> store -> bool * store)
  : list CompiledRule -> store -> store :=
  fix loop (children : list CompiledRule) (st : store) : store :=
    match children with
    | [] => st
    | childRule :: rest => loop rest (snd (execRule childRule st))
    end.

(** [for (const childRule of rule.oneOf)
       if (execRule(data, childRule, effects)) break] *)
Definition exec_first (execRule : CompiledRule -> store -> bool * store)
  : list CompiledRule -> store -> store :=
  fix loop (children : list CompiledRule) (st : store) : store :=
    match children with
    | [] => st
    | childRule :: rest =>
        let (matched, st') := execRule childRule st in
        if matched then st' else loop rest st'
    end.

Fixpoint execRule (rule : CompiledRule) (st : store) {struct rule}
  : bool * store :=
  match rule with
  | mkCompiledRule conds effs subRules oneOfRules =>
      let (passed, st1) := eval_conditions conds (record (Enter rule) st) in
      if negb passed then (false, st1) else
      let st2 := push_effects effs st1 in
      let st3 := match subRules with
                 | Some children => exec_all execRule children st2
                 | None => st2
                 end in
      let st4 := match oneOfRules with
                 | Some children => exec_first execRule children st3
                 | None => st3
                 end in
      (true, st4)
  end.

(** The [exec] of the compiled rule set. *)
Definition exec (compiled : list CompiledRule) : list Effect :=
  outEffects (exec_all execRule compiled empty_store).

End Executor.

(* ================================================================== *)
(** ** User configuration and compile errors *)

(** A raw rule, a raw condition, or any value found under a rule's key.
    [RNum n] is an integer number; [RFun f] is a function that returns,
    given by the boolean it returns;
    [RThrowingFun] is a function that throws whenever it is called;
    [RRegExp test] is a regular expression without the [g] and [y] flags,
    given by its [test] method.  Objects are plain objects: they inherit
    from [Object.prototype] and have string keys. *)
Inductive raw : Type :=
| RUndefined
| RNull
| RBool (b : bool)
| RNum (n : Z)
| RStr (s : string)
| RFun (f : value -> bool)
| RThrowingFun
| RRegExp (test : string -> bool)
| RArr (items : list raw)
| RObj (props : list (string * raw)).

(** ToBoolean, as used by [!condition], [if (value)] and [filter(Boolean)]. *)
Definition raw_truthy (r : raw) : bool :=
  match r with
  | RUndefined | RNull => false
  | RBool b => b
  | RNum n => negb (Z.eqb n 0)
  | RStr s => negb (String.eqb s "")
  | RFun _ | RThrowingFun | RRegExp _ | RArr _ | RObj _ => true
  end.

Definition raw_defined (r : raw) : bool :=
  match r with RUndefined => false | _ => true end.

Definition typeof (r : raw) : string :=
  match r with
  | RUndefined => "undefined"
  | RBool _ => "boolean"
  | RNum _ => "number"
  | RStr _ => "string"
  | RFun _ | RThrowingFun => "function"
  | RNull | RRegExp _ | RArr _ | RObj _ => "object"
  end.

Definition isArray (r : raw) : bool :=
  match r with RArr _ => true | _ => false end.

(** The decimal form of an index, as a template literal prints it. *)
Definition index_string (i : nat) : string :=
  NilEmpty.string_of_uint (Nat.to_uint i).

Fixpoint indexed {A : Type} (i : nat) (l : list A) : list (string * A) :=
  match l with
  | [] => []
  | a :: rest => (index_string i, a) :: indexed (S i) rest
  end.

Fixpoint characters (s : string) : list raw :=
  match s with
  | EmptyString => []
  | String c rest => RStr (String c EmptyString) :: characters rest
  end.

(** The enumerable own properties of a value, in the order of
    [Object.keys]. *)
Definition entries (r : raw) : list (string * raw) :=
  match r with
  | RObj props => props
  | RArr items => indexed 0 items
  | RStr s => indexed 0 (characters s)
  | _ => []
  end.

(** [r[key]] for an own property. *)
Definition raw_get (r : raw) (key : string) : raw :=
  match assoc key (entries r) with Some v => v | None => RUndefined end.

(** The arguments of [this.error(path, value, message)], for a call that
    returns the [Error]. *)
Record CompileError : Type := error {
  err_path : string;
  err_value : raw;
  err_message : string
}.



(** What is thrown in place of the compile error when the string
    conversion of the offending value fails: the [TypeError] of a value
    that cannot be converted to a primitive value, or what a [toString] or
    [valueOf] function of the value throws. *)
Inductive exception : Type :=
| TypeError
| Thrown_by_function.

(** A computation that returns, throws a compile error, or throws another
    exception. *)
Inductive result (A : Type) : Type :=
| Ok (a : A)
| Err (e : CompileError)
| Raise (x : exception).
Arguments Ok {A} a.
Arguments Err {A} e.
Arguments Raise {A} x.

Definition bind {A B : Type} (m : result A) (k : A -> result B) : result B :=
  match m with
  | Ok a => k a
  | Err e => Err e
  | Raise x => Raise x
  end.

(** Whether [`${value}`], the string conversion in the template literal of
    [error], throws, and what.  A primitive value, a function and a regular
    expression have a conversion.  An array joins the conversions of its
    items, in order.  A plain object calls its [toString] (its own one, a
    function, or the inherited one, which returns a string); when its own
    [toString] is not a function it calls its own [valueOf], a function;
    failing both (the inherited [valueOf] returns the object) the
    conversion throws a [TypeError]. *)
Fixpoint conversion_failure (value : raw) : option exception :=
  match value with
  | RArr items =>
      (fix join (l : list raw) : option exception :=
         match l with
         | [] => None
         | item :: rest =>
             match conversion_failure item with
             | Some x => Some x
             | None => join rest
             end
         end) items
  | RObj props =>
      match assoc "toString" props with
      | None | Some (RFun _) => None
      | Some RThrowingFun => Some Thrown_by_function
      | Some _ =>
          match assoc "valueOf" props with
          | Some (RFun _) => None
          | Some RThrowingFun => Some Thrown_by_function
          | _ => Some TypeError
          end
      end
  | _ => None
  end.

(** [throw this.error(path, value, message)] *)
Definition throw_error {A : Type} (path : string) (value : raw)
    (message : string) : result A :=
  match conversion_failure value with
  | None => Err (error path value message)
  | Some x => Raise x
  end.

Notation "x <- m ;; k" := (bind m (fun x => k))
  (at level 61, m at next level, right associativity).
Notation "' pat <- m ;; k" := (bind m (fun x => match x with pat => k end))
  (at level 61, pat pattern, m at next level, right associativity).

(* ================================================================== *)
(** ** The condition compiler *)

Definition some_condition {A : Type} (f : A -> bool) (l : list A) : bool :=
  existsb f l.

Definition every_condition {A : Type} (f : A -> bool) (l : list A) : bool :=
  forallb f l.

Definition combineConditionsOr (conditions : list Condition) : Condition :=
  match conditions with
  | [] => mkCondition false (fun _ => false)
  | [c] => c
  | _ =>
      mkCondition
        (some_condition cond_matchWhenEmpty conditions)
        (fun v => some_condition (fun c => cond_fn c v) conditions)
  end.

Definition combineConditionsAnd (conditions : list Condition) : Condition :=
  match conditions with
  | [] => mkCondition false (fun _ => false)
  | [c] => c
  | _ =>
      mkCondition
        (every_condition cond_matchWhenEmpty conditions)
        (fun v => every_condition (fun c => cond_fn c v) conditions)
  end.

(** [str.startsWith(searchString)] *)
Definition startsWith (str searchString : string) : bool :=
  String.prefix searchString str.

(** [items.map((c, i) => compileCondition(`${path}[${i}]`, c))], from
    index [i] on; the first item that throws ends the map. *)
Definition compile_items (compileCondition : string -> raw -> result Condition)
    (path : string) : list raw -> nat -> result (list Condition) :=
  fix loop (items : list raw) (i : nat) : result (list Condition) :=
    match items with
    | [] => Ok []
    | c :: rest =>
        x <- compileCondition (path ++ "[" ++ index_string i ++ "]")%string c ;;
        xs <- loop rest (S i) ;;
        Ok (x :: xs)
    end.

(** The loop over [Object.keys(condition)] of the object form; [conditions]
    is the array that the loop pushes to. *)
Definition compile_keys (compileCondition : string -> raw -> result Condition)
    (path : string)
  : list (string * raw) -> list Condition -> result (list Condition) :=
  fix keys_loop (props : list (string * raw)) (conditions : list Condition)
    {struct props} : result (list Condition) :=
    match props with
    | [] => Ok conditions
    | (key, value) :: rest =>
        if String.eqb key "or" then
          if raw_truthy value then
            if negb (isArray value) then
              throw_error (path ++ ".or")%string value
                     "Expected array of conditions"
            else
              c <- compileCondition (path ++ ".or")%string value ;;
              keys_loop rest (conditions ++ [c])
          else keys_loop rest conditions
        else if String.eqb key "and" then
          if raw_truthy value then
            match value with
            | RArr items =>
                cs <- compile_items compileCondition
                        (path ++ ".and")%string items 0 ;;
                keys_loop rest (conditions ++ cs)
            | _ =>
                throw_error (path ++ ".and")%string value
                       "Expected array of conditions"
            end
          else keys_loop rest conditions
        else if String.eqb key "not" then
          if raw_truthy value then
            matcher <- compileCondition (path ++ ".not")%string value ;;
            let fn := cond_fn matcher in
            keys_loop rest
              (conditions ++
               [mkCondition (negb (cond_matchWhenEmpty matcher))
                            (fun v => negb (fn v))])
          else keys_loop rest conditions
        else
          throw_error (path ++ "." ++ key)%string value
                 ("Unexpected property " ++ key ++ " in condition")%string
    end.

Definition is_empty_string (r : raw) : bool :=
  match r with RStr s => String.eqb s "" | _ => false end.

(** The probe [condition("")] of the function case returns for [RFun] and
    throws, into the [catch], for [RThrowingFun]. *)
Fixpoint compileCondition (path : string) (condition : raw) {struct condition}
  : result Condition :=
  if is_empty_string condition then
    Ok (mkCondition true
          (fun str => match str with VStr s => String.eqb s "" | _ => false end))
  else if negb (raw_truthy condition) then
    throw_error path condition "Expected condition but got falsy value"
  else
  match condition with
  | RStr s =>
      Ok (mkCondition (Nat.eqb (String.length s) 0)
            (fun str => match str with VStr t => startsWith t s | _ => false end))
  | RFun f => Ok (mkCondition (f (VStr "")) f)
  | RThrowingFun =>
      throw_error path condition "Evaluation of condition function threw error"
  | RRegExp test =>
      Ok (mkCondition (test "")
            (fun v => match v with VStr t => test t | _ => false end))
  | RArr items =>
      compiled <- compile_items compileCondition path items 0 ;;
      Ok (combineConditionsOr compiled)
  | RUndefined | RNull | RBool _ | RNum _ =>
      throw_error path condition
             ("Unexpected " ++ typeof condition
                ++ " when condition was expected")%string
  | RObj props =>
      conditions <- compile_keys compileCondition path props [] ;;
      match conditions with
      | [] => throw_error path condition "Expected condition, but got empty thing"
      | _ => Ok (combineConditionsAnd conditions)
      end
  end.

(* ================================================================== *)
(** ** The rule compiler *)

(** [References]: the map from identifiers to loader options. *)
Definition References : Type := list (string * raw).

(** What a handler of [hooks.rule] can change: the set of unhandled
    properties (in insertion order), the compiled rule under construction
    and the references. *)
Record builder : Type := mkBuilder {
  b_unhandledProperties : list string;
  b_compiledRule : CompiledRule;
  b_refs : References
}.

(** A function tapped on [hooks.rule]; it is called with the path and the
    raw rule, and returns or throws. *)
Definition handler : Type := string -> raw -> builder -> result builder.

(** [Set.prototype.has] and [Set.prototype.delete] *)
Definition has (key : string) (s : list string) : bool :=
  existsb (String.eqb key) s.

Definition delete (key : string) (s : list string) : list string :=
  filter (fun k => negb (String.eqb key k)) s.

Definition set_rules (rs : list CompiledRule) (r : CompiledRule) : CompiledRule :=
  mkCompiledRule (conditions r) (effects r) (Some rs) (oneOf r).

Definition set_oneOf (rs : list CompiledRule) (r : CompiledRule) : CompiledRule :=
  mkCompiledRule (conditions r) (effects r) (rules r) (Some rs).

(** [rules.filter(Boolean).map((rule, i) => compileRule(`${path}[${i}]`, ...))],
    from index [i] of the filtered array on. *)
Definition compile_rule_list
    (compileRule : string -> raw -> References -> result (CompiledRule * References))
    (path : string)
  : list raw -> nat -> References -> result (list CompiledRule * References) :=
  fix loop (rules : list raw) (i : nat) (refs : References)
    : result (list CompiledRule * References) :=
    match rules with
    | [] => Ok ([], refs)
    | rule :: rest =>
        if raw_truthy rule then
          '(r, refs) <- compileRule (path ++ "[" ++ index_string i ++ "]")%string
                          rule refs ;;
          '(rs, refs) <- loop rest (S i) refs ;;
          Ok (r :: rs, refs)
        else loop rest i refs
    end.

(** The continuation [k] applied to the own property [key] of the object
    with properties [props], or [absent] when there is none. *)
Definition with_property {A : Type} (key : string) (k : raw -> A) (absent : A)
  : list (string * raw) -> A :=
  fix find (props : list (string * raw)) : A :=
    match props with
    | [] => absent
    | (key', v) :: rest => if String.eqb key key' then k v else find rest
    end.

(** [Object.keys(rule).filter((key) => rule[key] !== undefined)] *)
Definition defined_keys (rule : raw) : list string :=
  map fst (filter (fun kv => raw_defined (snd kv)) (entries rule)).

(** The compiled rule set: [{ references, exec }]. *)
Record RuleSet : Type := mkRuleSet {
  references : References;
  ruleSet_exec : obj -> list Effect
}.

Section Compiler.

(** The functions tapped on [hooks.rule] by the plugins, in order. *)
Variable taps : list handler.

(** [this.hooks.rule.call(path, rule, unhandledProperties, compiledRule, refs)] *)
Fixpoint call_hooks (hs : list handler) (path : string) (rule : raw) (b : builder)
  : result builder :=
  match hs with
  | [] => Ok b
  | h :: rest => b' <- h path rule b ;; call_hooks rest path rule b'
  end.

Fixpoint compileRule (path : string) (rule : raw) (refs : References)
  {struct rule} : result (CompiledRule * References) :=
  b <- call_hooks taps path rule
         (mkBuilder (defined_keys rule) (mkCompiledRule [] [] None None) refs) ;;
  b <-
    (if has "rules" (b_unhandledProperties b) then
       let unhandled := delete "rules" (b_unhandledProperties b) in
       let must_be_array (rules : raw) : result builder :=
         throw_error path rules "Rule.rules must be an array of rules" in
       match rule with
       | RObj props =>
           with_property "rules"
             (fun rules =>
                match rules with
                | RArr items =>
                    '(rs, refs) <- compile_rule_list compileRule
                                     (path ++ ".rules")%string items 0 (b_refs b) ;;
                    Ok (mkBuilder unhandled (set_rules rs (b_compiledRule b)) refs)
                | _ => must_be_array rules
                end)
             (must_be_array RUndefined) props
       | _ => must_be_array (raw_get rule "rules")
       end
     else Ok b) ;;
  b <-
    (if has "oneOf" (b_unhandledProperties b) then
       let unhandled := delete "oneOf" (b_unhandledProperties b) in
       let must_be_array (oneOf : raw) : result builder :=
         throw_error path oneOf "Rule.oneOf must be an array of rules" in
       match rule with
       | RObj props =>
           with_property "oneOf"
             (fun oneOf =>
                match oneOf with
                | RArr items =>
                    '(rs, refs) <- compile_rule_list compileRule
                                     (path ++ ".oneOf")%string items 0 (b_refs b) ;;
                    Ok (mkBuilder unhandled (set_oneOf rs (b_compiledRule b)) refs)
                | _ => must_be_array oneOf
                end)
             (must_be_array RUndefined) props
       | _ => must_be_array (raw_get rule "oneOf")
       end
     else Ok b) ;;
  match b_unhandledProperties b with
  | [] => Ok (b_compiledRule b, b_refs b)
  | unknown =>
      throw_error path rule
             ("Properties " ++ String.concat ", " unknown ++ " are unknown")%string
  end.

Definition compileRules (path : string) (rules : list raw) (refs : References)
  : result (list CompiledRule * References) :=
  compile_rule_list compileRule path rules 0 refs.

Definition compile (ruleSet : list raw) : result RuleSet :=
  '(rules, refs) <- compileRules "ruleSet" ruleSet [] ;;
  Ok (mkRuleSet refs (fun data => exec data rules)).

End Compiler.

(* ================================================================== *)
(** ** Vocabulary of the statements *)

(** Two stores put end to end. *)
Definition extend (st d : store) : store :=
  mkStore (outEffects st ++ outEffects d) (trace st ++ trace d).

Section Vocabulary.

Variable data : obj.

(** A condition lets the loop go on: its value is defined and satisfies
    [fn], or its value is absent and [matchWhenEmpty] is true. *)
Definition passes (c : RuleCondition) : bool :=
  match resolve data (property c) with
  | Some v => fn c v
  | None => matchWhenEmpty c
  end.

Definition all_pass (conds : list RuleCondition) : bool :=
  forallb passes conds.

(** The calls of [fn] for the conditions of a list whose value is defined,
    in the order of the list. *)
Definition tests (conds : list RuleCondition) : list event :=
  flat_map (fun c => match resolve data (property c) with
                     | Some v => [Test c v]
                     | None => []
                     end) conds.

(** The effects that the entries of [rule.effects] stand for, in order. *)
Definition produced (effs : list EffectEntry) : list Effect :=
  flat_map (fun e => match e with
                     | Static e => [e]
                     | Generated g => g data
                     end) effs.

Definition generator_calls (effs : list EffectEntry) : list event :=
  flat_map (fun e => match e with
                     | Static _ => []
                     | Generated g => [Generate g]
                     end) effs.

(** [execRule] returns [true] on the rule. *)
Definition matches (rule : CompiledRule) : bool :=
  fst (execRule data rule empty_store).

(** What [execRule] adds to an empty store on the rule. *)
Definition rule_run (rule : CompiledRule) : store :=
  snd (execRule data rule empty_store).

(** What executing every rule of a list adds, rule after rule. *)
Definition runs (children : list CompiledRule) : store :=
  mkStore (flat_map (fun r => outEffects (rule_run r)) children)
          (flat_map (fun r => trace (rule_run r)) children).

(** The store of a rule whose conditions passed when its [oneOf] group is
    reached: after its conditions, its effects and its [rules] group. *)
Definition before_oneOf (rule : CompiledRule) (st : store) : store :=
  let st1 := snd (eval_conditions data (conditions rule) (record (Enter rule) st)) in
  let st2 := push_effects data (effects rule) st1 in
  match rules rule with
  | Some children => exec_all (execRule data) children st2
  | None => st2
  end.

(** The store when the [rules] group is reached. *)
Definition before_rules (rule : CompiledRule) (st : store) : store :=
  push_effects data (effects rule)
    (snd (eval_conditions data (conditions rule) (record (Enter rule) st))).

(** [execRule] commutes with a prefix of the store: what it returns and
    what it adds depend on the input record and the rule only. *)
Definition framed (rule : CompiledRule) : Prop :=
  forall a b,
    execRule data rule (extend a b)
    = (fst (execRule data rule b), extend a (snd (execRule data rule b))).

(** [w] is reached from [v] by following own properties only. *)
Inductive own_path : value -> list string -> value -> Prop :=
| own_path_nil (v : value) : own_path v [] v
| own_path_cons (o : obj) (k : string) (v : value) (rest : list string)
    (w : value) :
    assoc k (own_props o) = Some v ->
    own_path v rest w ->
    own_path (VObj o) (k :: rest) w.

End Vocabulary.

(** The part of a result that does not depend on the error. *)
Definition returned {A : Type} (r : result A) : option A :=
  match r with Ok a => Some a | _ => None end.

(** Whether a raw condition compiles, and to what, does not depend on the
    path, which only enters error messages. *)
Definition path_independent (C : raw) : Prop :=
  forall p1 p2,
    returned (compileCondition p1 C) = returned (compileCondition p2 C).

Definition deeply_path_independent (C : raw) : Prop :=
  path_independent C
  /\ match C with
     | RArr items => Forall path_independent items
     | _ => True
     end.

(* ================================================================== *)
(** ** Further vocabulary *)

(** The raw condition [C] compiles to [c] (at some path; the path does not
    matter, see [path_independent]). *)
Definition compiles_to (C : raw) (c : Condition) : Prop :=
  exists path, compileCondition path C = Ok c.

(** [full] is [path] followed by something: the error is located at or
    below [path]. *)
Definition located_under (path full : string) : Prop :=
  exists suffix, full = (path ++ suffix)%string.

(** A step from a raw value into it: to the value under a key of an object
    or to the item at an index of an array. *)
Inductive step : Type :=
| Key (k : string)
| Index (i : nat).

(** The steps as the paths of the compiler write them: [.key] and [[i]]. *)
Definition render_step (s : step) : string :=
  match s with
  | Key k => ("." ++ k)%string
  | Index i => ("[" ++ index_string i ++ "]")%string
  end.

Fixpoint render (steps : list step) : string :=
  match steps with
  | [] => ""
  | s :: rest => (render_step s ++ render rest)%string
  end.

(** [node] is the value that the steps lead to inside [root]. *)
Inductive leads_to : raw -> list step -> raw -> Prop :=
| leads_here (root : raw) : leads_to root [] root
| leads_through_key (props : list (string * raw)) (k : string) (v : raw)
    (steps : list step) (node : raw) :
    In (k, v) props ->
    leads_to v steps node ->
    leads_to (RObj props) (Key k :: steps) node
| leads_through_index (items : list raw) (i : nat) (v : raw)
    (steps : list step) (node : raw) :
    nth_error items i = Some v ->
    leads_to v steps node ->
    leads_to (RArr items) (Index i :: steps) node.

(** The error is the one of the node that [steps] lead to inside [root],
    reported at [path] followed by these steps. *)
Definition reports (path : string) (root : raw) (e : CompileError) : Prop :=
  exists steps,
    err_path e = (path ++ render steps)%string
    /\ leads_to root steps (err_value e).

(** The predicate of a compiled condition agrees with its
    [matchWhenEmpty] on the empty string. *)
Definition probes_empty_string (c : Condition) : Prop :=
  cond_matchWhenEmpty c = cond_fn c (VStr "").

(** The children of a group, none when the group is [undefined]. *)
Definition group (g : option (list CompiledRule)) : list CompiledRule :=
  match g with Some children => children | None => [] end.

(** The children of a [oneOf] group that are executed on an input record:
    all of them up to and including the first on which [execRule] returns
    [true]. *)
Fixpoint tried (data : obj) (children : list CompiledRule)
  : list CompiledRule :=
  match children with
  | [] => []
  | c :: rest => if matches data c then [c] else c :: tried data rest
  end.

(** A compiled rule without conditions and effects at any depth. *)
Inductive bare : CompiledRule -> Prop :=
| bare_rule (subRules oneOfRules : option (list CompiledRule)) :
    Forall bare (group subRules) ->
    Forall bare (group oneOfRules) ->
    bare (mkCompiledRule [] [] subRules oneOfRules).

(** What [compileRule] may return when no handler is tapped: a bare rule
    and the references it was given, or an error located under its path. *)
Definition engine_only (path : string) (refs : References)
    (res : result (CompiledRule * References)) : Prop :=
  match res with
  | Ok (r, refs') => bare r /\ refs' = refs
  | Err e => located_under path (err_path e)
  | Raise _ => True
  end.

Definition engine_only_list (path : string) (refs : References)
    (res : result (list CompiledRule * References)) : Prop :=
  match res with
  | Ok (rs, refs') => Forall bare rs /\ refs' = refs
  | Err e => located_under path (err_path e)
  | Raise _ => True
  end.

(** The step of [compileRule] for a nested group, read as a function of
    the builder: when [key] is still unhandled, [rule[key]] must be an
    array, which is compiled at the sub-path [key] and stored by [set]. *)
Definition compile_group
    (compileRules : string -> list raw -> References
                    -> result (list CompiledRule * References))
    (key message : string)
    (set : list CompiledRule -> CompiledRule -> CompiledRule)
    (path : string) (rule : raw) (b : builder) : result builder :=
  if has key (b_unhandledProperties b) then
    match raw_get rule key with
    | RArr items =>
        '(rs, refs) <- compileRules (path ++ "." ++ key)%string items (b_refs b) ;;
        Ok (mkBuilder (delete key (b_unhandledProperties b))
                      (set rs (b_compiledRule b)) refs)
    | v => throw_error path v message
    end
  else Ok b.

(** The last step of [compileRule]: no property may be left unhandled. *)
Definition reject_unknown (path : string) (rule : raw) (b : builder)
  : result (CompiledRule * References) :=
  match b_unhandledProperties b with
  | [] => Ok (b_compiledRule b, b_refs b)
  | unknown =>
      throw_error path rule
             ("Properties " ++ String.concat ", " unknown ++ " are unknown")%string
  end.

(* ================================================================== *)
(** ** Sample input records and rules *)

Module Sample.

Definition object_prototype : obj :=
  Obj [("toString", VFun "Object.prototype.toString")] None.

(** [{ resource: "x/index.js", descriptionData: { type: "module" } }] *)
Definition record_x : obj :=
  Obj [("resource", VStr "x/index.js");
       ("descriptionData",
        VObj (Obj [("type", VStr "module")] (Some object_prototype)))]
      (Some object_prototype).

(** [{ resource: "y/index.js" }] *)
Definition record_y : obj :=
  Obj [("resource", VStr "y/index.js")] (Some object_prototype).

(** The condition that a handler of [test] makes of a string: the compiled
    string on the property [resource]. *)
Definition test (S : string) : RuleCondition :=
  mkRuleCondition (Single "resource")
    (Nat.eqb (String.length S) 0)
    (fun str => match str with VStr t => startsWith t S | _ => false end).

(** A condition on [issuer] that accepts an absent issuer and no value. *)
Definition no_issuer : RuleCondition :=
  mkRuleCondition (Single "issuer") true (fun _ => false).

Definition use (loader : string) : Effect := mkEffect "use" (VStr loader).

(** [{ test: S, use: loader }] and [{ use: loader }], compiled. *)
Definition test_use (S loader : string) : CompiledRule :=
  mkCompiledRule [test S] [Static (use loader)] None None.

Definition use_only (loader : string) : CompiledRule :=
  mkCompiledRule [] [Static (use loader)] None None.

(** [{ oneOf: [{ test: "x", use: "A" }, { use: "B" }] }] *)
Definition one_of_x : CompiledRule :=
  mkCompiledRule [] [] None (Some [test_use "x" "A"; use_only "B"]).

(** [{ rules: [{ test: "x", use: "A" }, { use: "B" }] }] *)
Definition rules_x : CompiledRule :=
  mkCompiledRule [] [] (Some [test_use "x" "A"; use_only "B"]) None.

(** [{ oneOf: [{ test: "y", use: "C" }, { test: "x", use: "A" }, { use: "B" }] }] *)
Definition one_of_yx : CompiledRule :=
  mkCompiledRule [] [] None
    (Some [test_use "y" "C"; test_use "x" "A"; use_only "B"]).

(** A rule whose second condition fails on [record_x]. *)
Definition guarded : CompiledRule :=
  mkCompiledRule [no_issuer; test "y"; test "x"] [Static (use "A")]
    (Some [use_only "B"]) (Some [use_only "C"]).

Definition busy_store : store := mkStore [use "Z"] [].

End Sample.

(* ================================================================== *)
(** ** Induction over nested rules and nested configuration *)

Section CompiledRule_induction.

Variable P : CompiledRule -> Prop.

Hypothesis step : forall conds effs subRules oneOfRules,
  (forall children, subRules = Some children -> Forall P children) ->
  (forall children, oneOfRules = Some children -> Forall P children) ->
  P (mkCompiledRule conds effs subRules oneOfRules).

Fixpoint CompiledRule_nested_ind (r : CompiledRule) : P r :=
  match r with
  | mkCompiledRule conds effs subRules oneOfRules =>
      let all := fix all (l : list CompiledRule) : Forall P l :=
        match l with
        | [] => Forall_nil P
        | x :: rest => Forall_cons x (CompiledRule_nested_ind x) (all rest)
        end in
      step conds effs
        (fun children (e : subRules = Some children) =>
           match subRules as s return s = Some children -> Forall P children with
           | Some l => fun e' =>
               match e' in _ = y return
                 match y with Some c => Forall P c | None => True end with
               | eq_refl => all l
               end
           | None => fun e' =>
               match e' in _ = y return
                 match y with Some c => Forall P c | None => True end with
               | eq_refl => I
               end
           end e)
        (fun children (e : oneOfRules = Some children) =>
           match oneOfRules as s return s = Some children -> Forall P children with
           | Some l => fun e' =>
               match e' in _ = y return
                 match y with Some c => Forall P c | None => True end with
               | eq_refl => all l
               end
           | None => fun e' =>
               match e' in _ = y return
                 match y with Some c => Forall P c | None => True end with
               | eq_refl => I
               end
           end e)
  end.

End CompiledRule_induction.

Section raw_induction.

Variable P : raw -> Prop.

Definition is_container (r : raw) : bool :=
  match r with RArr _ | RObj _ => true | _ => false end.

Hypothesis array_step : forall items, Forall P items -> P (RArr items).
Hypothesis object_step :
  forall props, Forall (fun kv => P (snd kv)) props -> P (RObj props).
Hypothesis leaf_step : forall r, is_container r = false -> P r.

Fixpoint raw_nested_ind (r : raw) : P r :=
  match r with
  | RArr items =>
      array_step
        ((fix all (l : list raw) : Forall P l :=
            match l with
            | [] => Forall_nil P
            | x :: rest => Forall_cons x (raw_nested_ind x) (all rest)
            end) items)
  | RObj props =>
      object_step
        ((fix all (l : list (string * raw)) : Forall (fun kv => P (snd kv)) l :=
            match l with
            | [] => Forall_nil _
            | kv :: rest =>
                Forall_cons kv
                  (match kv as p return P (snd p) with
                   | (_, v) => raw_nested_ind v
                   end)
                  (all rest)
            end) props)
  | RUndefined => leaf_step RUndefined eq_refl
  | RNull => leaf_step RNull eq_refl
  | RBool b => leaf_step (RBool b) eq_refl
  | RNum n => leaf_step (RNum n) eq_refl
  | RStr s => leaf_step (RStr s) eq_refl
  | RFun f => leaf_step (RFun f) eq_refl
  | RThrowingFun => leaf_step RThrowingFun eq_refl
  | RRegExp t => leaf_step (RRegExp t) eq_refl
  end.

End raw_induction.

(* ================================================================== *)
(** ** Stores *)

Lemma store_eq (a b : store) :
  outEffects a = outEffects b -> trace a = trace b -> a = b.
Proof. destruct a, b; simpl; intros; subst; reflexivity. Qed.

Lemma extend_empty_l (st : store) : extend empty_store st = st.
Proof. destruct st; reflexivity. Qed.

Lemma extend_empty_r (st : store) : extend st empty_store = st.
Proof. apply store_eq; simpl; apply app_nil_r. Qed.

Lemma extend_assoc (a b c : store) :
  extend (extend a b) c = extend a (extend b c).
Proof. apply store_eq; simpl; symmetry; apply app_assoc. Qed.

Lemma record_extend (ev : event) (a b : store) :
  record ev (extend a b) = extend a (record ev b).
Proof. apply store_eq; simpl; [reflexivity | symmetry; apply app_assoc]. Qed.

Lemma push_extend (e : Effect) (a b : store) :
  push e (extend a b) = extend a (push e b).
Proof. apply store_eq; simpl; [symmetry; apply app_assoc | reflexivity]. Qed.

Lemma push_all_extend (es : list Effect) (a b : store) :
  push_all es (extend a b) = extend a (push_all es b).
Proof. apply store_eq; simpl; [symmetry; apply app_assoc | reflexivity]. Qed.

(* ================================================================== *)
(** ** The loops of [execRule] *)

Section Executor_facts.

Variable data : obj.

Lemma eval_conditions_all_pass (conds : list RuleCondition) (st : store) :
  all_pass data conds = true ->
  eval_conditions data conds st
  = (true, mkStore (outEffects st) (trace st ++ tests data conds)).
Proof.
  revert st; induction conds as [|c rest IH]; intros st H; simpl.
  - rewrite app_nil_r; destruct st; reflexivity.
  - simpl in H. apply andb_true_iff in H as [Hc Hrest].
    unfold passes in Hc.
    destruct (resolve data (property c)) as [v|]; rewrite Hc.
    + rewrite (IH _ Hrest); simpl. now rewrite <- app_assoc.
    + now rewrite (IH _ Hrest).
Qed.

Lemma tests_app (l1 l2 : list RuleCondition) :
  tests data (l1 ++ l2) = tests data l1 ++ tests data l2.
Proof. unfold tests; apply flat_map_app. Qed.

Lemma eval_conditions_first_fail (pre post : list RuleCondition)
    (c : RuleCondition) (st : store) :
  all_pass data pre = true ->
  passes data c = false ->
  eval_conditions data (pre ++ c :: post) st
  = (false, mkStore (outEffects st) (trace st ++ tests data (pre ++ [c]))).
Proof.
  revert st; induction pre as [|p pre IH]; intros st Hpre Hc; simpl.
  - unfold passes in Hc.
    destruct (resolve data (property c)) as [v|]; rewrite Hc; simpl.
    + reflexivity.
    + rewrite app_nil_r; destruct st; reflexivity.
  - simpl in Hpre. apply andb_true_iff in Hpre as [Hp Hpre].
    unfold passes in Hp.
    destruct (resolve data (property p)) as [v|]; rewrite Hp.
    + rewrite (IH _ Hpre Hc); simpl. now rewrite <- app_assoc.
    + now rewrite (IH _ Hpre Hc).
Qed.

(** A list of conditions either passes as a whole or has a first condition
    that does not pass. *)
Lemma first_failure (conds : list RuleCondition) :
  all_pass data conds = false ->
  exists pre c post,
    conds = pre ++ c :: post /\ all_pass data pre = true /\ passes data c = false.
Proof.
  induction conds as [|c rest IH]; simpl; intros H; [discriminate|].
  destruct (passes data c) eqn:Hc.
  - destruct (IH H) as (pre & c' & post & -> & Hpre & Hc').
    exists (c :: pre), c', post; simpl; rewrite Hc; auto.
  - exists [], c, rest; auto.
Qed.

Lemma eval_conditions_fst (conds : list RuleCondition) (st : store) :
  fst (eval_conditions data conds st) = all_pass data conds.
Proof.
  destruct (all_pass data conds) eqn:H.
  - now rewrite eval_conditions_all_pass.
  - destruct (first_failure _ H) as (pre & c & post & -> & Hpre & Hc).
    now rewrite eval_conditions_first_fail.
Qed.

Lemma eval_conditions_extend (conds : list RuleCondition) (a b : store) :
  eval_conditions data conds (extend a b)
  = (fst (eval_conditions data conds b),
     extend a (snd (eval_conditions data conds b))).
Proof.
  destruct (all_pass data conds) eqn:H.
  - rewrite !eval_conditions_all_pass by assumption; simpl.
    f_equal; apply store_eq; simpl; now rewrite ?app_assoc.
  - destruct (first_failure _ H) as (pre & c & post & -> & Hpre & Hc).
    rewrite !eval_conditions_first_fail by assumption; simpl.
    f_equal; apply store_eq; simpl; now rewrite ?app_assoc.
Qed.

Lemma push_effects_spec (effs : list EffectEntry) (st : store) :
  push_effects data effs st
  = mkStore (outEffects st ++ produced data effs)
            (trace st ++ generator_calls effs).
Proof.
  revert st; induction effs as [|[e|g] rest IH]; intros st; simpl.
  - rewrite !app_nil_r; destruct st; reflexivity.
  - rewrite IH; simpl. now rewrite <- app_assoc.
  - rewrite IH; simpl. now rewrite <- !app_assoc.
Qed.

Lemma push_effects_extend (effs : list EffectEntry) (a b : store) :
  push_effects data effs (extend a b) = extend a (push_effects data effs b).
Proof.
  rewrite !push_effects_spec; apply store_eq; simpl; now rewrite app_assoc.
Qed.

Lemma exec_all_extend (children : list CompiledRule) :
  Forall (framed data) children ->
  forall a b,
    exec_all (execRule data) children (extend a b)
    = extend a (exec_all (execRule data) children b).
Proof.
  induction 1 as [|r rest Hr _ IH]; intros a b; simpl; [reflexivity|].
  rewrite Hr; simpl. apply IH.
Qed.

Lemma exec_first_extend (children : list CompiledRule) :
  Forall (framed data) children ->
  forall a b,
    exec_first (execRule data) children (extend a b)
    = extend a (exec_first (execRule data) children b).
Proof.
  induction 1 as [|r rest Hr _ IH]; intros a b; simpl; [reflexivity|].
  rewrite Hr. destruct (execRule data r b) as [m s]; simpl.
  destruct m; [reflexivity | apply IH].
Qed.

Lemma execRule_framed (rule : CompiledRule) : framed data rule.
Proof.
  induction rule as [conds effs subRules oneOfRules IHs IHo]
    using CompiledRule_nested_ind.
  intros a b; simpl.
  rewrite record_extend, eval_conditions_extend.
  destruct (eval_conditions data conds
              (record (Enter (mkCompiledRule conds effs subRules oneOfRules)) b))
    as [passed s1]; simpl.
  destruct passed; simpl; [|reflexivity].
  rewrite push_effects_extend.
  f_equal.
  destruct subRules as [sub|], oneOfRules as [one|];
    repeat first [ rewrite (exec_all_extend (IHs _ eq_refl))
                 | rewrite (exec_first_extend (IHo _ eq_refl)) ];
    reflexivity.
Qed.

End Executor_facts.

(* ================================================================== *)
(** ** Properties of [execRule] and [exec] *)

Section Executor_properties.

Variable data : obj.

Lemma execRule_unfold (rule : CompiledRule) (st : store) :
  execRule data rule st
  = if all_pass data (conditions rule)
    then (true,
          match oneOf rule with
          | Some children =>
              exec_first (execRule data) children (before_oneOf data rule st)
          | None => before_oneOf data rule st
          end)
    else (false,
          snd (eval_conditions data (conditions rule) (record (Enter rule) st))).
Proof.
  destruct rule as [conds effs subRules oneOfRules].
  unfold before_oneOf; simpl.
  pose proof (eval_conditions_fst data conds
    (record (Enter (mkCompiledRule conds effs subRules oneOfRules)) st)) as H.
  destruct (eval_conditions data conds _) as [passed s1]; simpl in *.
  rewrite <- H; destruct passed; reflexivity.
Qed.

Lemma matches_all_pass (rule : CompiledRule) :
  matches data rule = all_pass data (conditions rule).
Proof.
  unfold matches; rewrite execRule_unfold.
  destruct (all_pass data (conditions rule)); reflexivity.
Qed.

Lemma execRule_run (rule : CompiledRule) (st : store) :
  execRule data rule st = (matches data rule, extend st (rule_run data rule)).
Proof.
  rewrite <- (extend_empty_r st) at 1.
  now rewrite execRule_framed.
Qed.

Lemma runs_cons (r : CompiledRule) (l : list CompiledRule) :
  runs data (r :: l) = extend (rule_run data r) (runs data l).
Proof. reflexivity. Qed.

Lemma runs_app (l1 l2 : list CompiledRule) :
  runs data (l1 ++ l2) = extend (runs data l1) (runs data l2).
Proof. unfold runs, extend; simpl; now rewrite !flat_map_app. Qed.

Lemma exec_all_runs (children : list CompiledRule) (st : store) :
  exec_all (execRule data) children st = extend st (runs data children).
Proof.
  revert st; induction children as [|r rest IH]; intros st; simpl.
  - symmetry; apply extend_empty_r.
  - rewrite execRule_run; simpl.
    now rewrite IH, extend_assoc, runs_cons.
Qed.

Lemma exec_first_stops (pre post : list CompiledRule) (c : CompiledRule)
    (st : store) :
  Forall (fun r => matches data r = false) pre ->
  matches data c = true ->
  exec_first (execRule data) (pre ++ c :: post) st
  = snd (execRule data c (exec_all (execRule data) pre st)).
Proof.
  intros Hpre Hc; revert st.
  induction Hpre as [|r pre Hr _ IH]; intros st; simpl.
  - rewrite execRule_run, Hc; reflexivity.
  - rewrite (execRule_run r), Hr; simpl. apply IH.
Qed.

Lemma exec_first_no_match (children : list CompiledRule) (st : store) :
  Forall (fun r => matches data r = false) children ->
  exec_first (execRule data) children st
  = exec_all (execRule data) children st.
Proof.
  intros H; revert st.
  induction H as [|r rest Hr _ IH]; intros st; simpl; [reflexivity|].
  rewrite (execRule_run r), Hr; simpl. apply IH.
Qed.

Lemma eval_conditions_outEffects (conds : list RuleCondition) (st : store) :
  outEffects (snd (eval_conditions data conds st)) = outEffects st.
Proof.
  destruct (all_pass data conds) eqn:H.
  - now rewrite eval_conditions_all_pass.
  - destruct (first_failure _ _ H) as (pre & c & post & -> & Hpre & Hc).
    now rewrite eval_conditions_first_fail.
Qed.

(** A rule on which [execRule] returns [false] pushes no effect. *)
Lemma no_match_no_effect (rule : CompiledRule) :
  matches data rule = false -> outEffects (rule_run data rule) = [].
Proof.
  rewrite matches_all_pass; unfold rule_run; intros H.
  rewrite execRule_unfold, H; simpl.
  now rewrite eval_conditions_outEffects.
Qed.

Lemma no_match_no_effects (children : list CompiledRule) :
  Forall (fun r => matches data r = false) children ->
  outEffects (runs data children) = [].
Proof.
  induction 1 as [|r rest Hr _ IH]; simpl; [reflexivity|].
  simpl in IH. now rewrite (no_match_no_effect _ Hr), IH.
Qed.

(** Every execution of a rule starts by entering it. *)
Lemma rule_run_enter (rule : CompiledRule) :
  exists rest, trace (rule_run data rule) = Enter rule :: rest.
Proof.
  assert (forall st, exists d,
            snd (eval_conditions data (conditions rule) st) = extend st d) as He.
  { intros st. eexists. rewrite <- (extend_empty_r st) at 1.
    rewrite eval_conditions_extend; reflexivity. }
  assert (forall st, exists d, before_oneOf data rule st
                               = extend (record (Enter rule) st) d) as Hb.
  { intros st. unfold before_oneOf.
    destruct (He (record (Enter rule) st)) as [d1 ->].
    rewrite <- (extend_empty_r (extend _ d1)), push_effects_extend.
    destruct (rules rule) as [children|].
    - rewrite exec_all_runs, !extend_assoc; eauto.
    - rewrite !extend_assoc; eauto. }
  assert (exists d, rule_run data rule
                    = extend (record (Enter rule) empty_store) d) as [d ->].
  { unfold rule_run. rewrite execRule_unfold.
    destruct (all_pass data (conditions rule)); simpl; [|apply He].
    destruct (Hb empty_store) as [d ->].
    destruct (oneOf rule) as [children|]; [|eauto].
    rewrite <- (extend_empty_r (extend _ d)).
    rewrite exec_first_extend by (apply Forall_forall; intros; apply execRule_framed).
    rewrite extend_assoc; eauto. }
  simpl; eauto.
Qed.

(** C1. [execRule] tests the conditions of a rule in the order in which they
    are declared.  At the first condition that fails (its value is defined
    and [fn] is false on it, or its value is absent and [matchWhenEmpty] is
    false) it returns [false]: the effects are as they were, and the trace
    only gains the entry into the rule and the tests of the conditions up to
    that one, so neither a later condition nor an effect nor a nested group
    was evaluated.  A condition whose value is absent and whose
    [matchWhenEmpty] is true is passed over without a test. *)
Theorem execRule_fails_at_first_failing_condition
    (rule : CompiledRule) (st : store)
    (pre post : list RuleCondition) (c : RuleCondition) :
  conditions rule = pre ++ c :: post ->
  all_pass data pre = true ->
  (exists v, resolve data (property c) = Some v /\ fn c v = false)
  \/ (resolve data (property c) = None /\ matchWhenEmpty c = false) ->
  execRule data rule st
  = (false,
     mkStore (outEffects st)
             (trace st ++ Enter rule :: tests data (pre ++ [c])))
  /\ (forall (c' : RuleCondition) (rest : list RuleCondition) (st' : store),
        resolve data (property c') = None ->
        matchWhenEmpty c' = true ->
        eval_conditions data (c' :: rest) st' = eval_conditions data rest st').
Proof.
  intros Hconds Hpre Hc; split.
  - assert (passes data c = false) as Hfail.
    { unfold passes. destruct Hc as [(v & -> & Hv) | (-> & Hm)]; assumption. }
    assert (all_pass data (conditions rule) = false) as Hall.
    { rewrite Hconds; unfold all_pass; rewrite forallb_app; simpl.
      rewrite Hfail. now rewrite andb_false_r. }
    rewrite execRule_unfold, Hall, Hconds.
    rewrite eval_conditions_first_fail by assumption; simpl.
    now rewrite <- app_assoc.
  - intros c' rest st' Hres Hm; simpl. now rewrite Hres, Hm.
Qed.

(** C2. In a rule whose conditions passed, the children of [oneOf] are
    executed in the order of the array until one returns [true]: when
    [children = pre ++ c :: post], [execRule] returns [false] on every rule
    of [pre] and [true] on [c], the rule ends in the store that [c] leaves
    after the rules of [pre]; the effects are those of [c] only, and the
    trace holds the executions of [pre] and of [c] and nothing of [post].
    When no child returns [true], every child is executed and no effect is
    added. *)
Theorem oneOf_stops_after_first_match
    (rule : CompiledRule) (st : store) (children : list CompiledRule) :
  all_pass data (conditions rule) = true ->
  oneOf rule = Some children ->
  (forall pre c post,
      children = pre ++ c :: post ->
      Forall (fun r => matches data r = false) pre ->
      matches data c = true ->
      execRule data rule st
      = (true,
         snd (execRule data c
                (exec_all (execRule data) pre (before_oneOf data rule st))))
      /\ outEffects (snd (execRule data rule st))
         = outEffects (before_oneOf data rule st)
           ++ outEffects (rule_run data c)
      /\ trace (snd (execRule data rule st))
         = trace (before_oneOf data rule st)
           ++ trace (runs data (pre ++ [c])))
  /\ (Forall (fun r => matches data r = false) children ->
      execRule data rule st
      = (true, exec_all (execRule data) children (before_oneOf data rule st))
      /\ outEffects (snd (execRule data rule st))
         = outEffects (before_oneOf data rule st)).
Proof.
  intros Hpass Hone.
  assert (execRule data rule st
          = (true, exec_first (execRule data) children
                     (before_oneOf data rule st))) as Hrule.
  { now rewrite execRule_unfold, Hpass, Hone. }
  split.
  - intros pre c post -> Hpre Hc.
    rewrite Hrule, exec_first_stops by assumption.
    split; [reflexivity|].
    rewrite execRule_run, exec_all_runs, runs_app.
    cbn [snd extend outEffects trace].
    rewrite (no_match_no_effects Hpre), !app_nil_r.
    split; [reflexivity|].
    simpl; now rewrite app_nil_r, app_assoc.
  - intros Hnone.
    rewrite Hrule, exec_first_no_match by assumption.
    split; [reflexivity|].
    rewrite exec_all_runs. cbn [snd extend outEffects trace].
    now rewrite (no_match_no_effects Hnone), app_nil_r.
Qed.

(** C3. [execRule] returns [true] exactly when all the conditions of the
    rule itself pass; the effects and the nested [rules] and [oneOf] groups
    have no part in the result.  The loop over [rules] and the loop of
    [exec] drop the result: only the loop over [oneOf] reads it. *)
Theorem execRule_true_iff_own_conditions_pass
    (rule : CompiledRule) (st : store) :
  fst (execRule data rule st) = all_pass data (conditions rule)
  /\ (forall effs subRules oneOfRules st',
        fst (execRule data
               (mkCompiledRule (conditions rule) effs subRules oneOfRules) st')
        = fst (execRule data rule st))
  /\ (forall children st',
        exec_all (execRule data) children st'
        = fold_left (fun s r => snd (execRule data r s)) children st').
Proof.
  assert (forall r s, fst (execRule data r s) = all_pass data (conditions r)) as H.
  { intros r s. rewrite execRule_run; simpl. apply matches_all_pass. }
  split; [apply H|]. split.
  - intros. now rewrite !H.
  - intros children; induction children as [|r rest IH]; intros st'; simpl;
      [reflexivity | apply IH].
Qed.

(** C4. [exec] executes every top-level rule, in the order of the list, on
    one array: its result is the effects of the first rule, then those of
    the second, and so on, and its trace the executions of all the rules in
    that order, each starting with the entry into its rule.  Whatever store
    a rule is executed in, it extends that store with what the rule adds.
    The children of a [rules] group are executed in the same way, all of
    them and in order, whatever [execRule] returns on each of them. *)
Theorem exec_runs_every_rule_in_order :
  (forall compiled : list CompiledRule,
      exec data compiled = outEffects (runs data compiled)
      /\ exec_all (execRule data) compiled empty_store = runs data compiled)
  /\ (forall l1 r l2,
        runs data (l1 ++ r :: l2)
        = extend (runs data l1) (extend (rule_run data r) (runs data l2))
        /\ exists rest, trace (rule_run data r) = Enter r :: rest)
  /\ (forall rule st,
        snd (execRule data rule st) = extend st (rule_run data rule))
  /\ (forall rule st children,
        all_pass data (conditions rule) = true ->
        rules rule = Some children ->
        before_oneOf data rule st
        = extend (before_rules data rule st) (runs data children)
        /\ execRule data rule st
           = (true,
              match oneOf rule with
              | Some l =>
                  exec_first (execRule data) l (before_oneOf data rule st)
              | None => before_oneOf data rule st
              end)).
Proof.
  split; [|split; [|split]].
  - intros compiled; unfold exec.
    now rewrite exec_all_runs, extend_empty_l.
  - intros l1 r l2; split.
    + now rewrite runs_app, runs_cons.
    + apply rule_run_enter.
  - intros rule st. now rewrite execRule_run.
  - intros rule st children Hpass Hrules; split.
    + unfold before_oneOf, before_rules. rewrite Hrules. apply exec_all_runs.
    + now rewrite execRule_unfold, Hpass.
Qed.

End Executor_properties.

(* ================================================================== *)
(** ** Properties of the condition compiler *)

Lemma prefix_iff (s t : string) :
  String.prefix s t = true <-> exists rest, t = (s ++ rest)%string.
Proof.
  revert t; induction s as [|a s IH]; intros t.
  - destruct t; simpl; split; eauto.
  - destruct t as [|b t]; simpl.
    + split; [discriminate | intros [r H]; discriminate].
    + destruct (ascii_dec a b) as [->|Hab].
      * rewrite IH; split; intros [r H]; exists r;
          [now rewrite H | now inversion H].
      * split; [discriminate | intros [r H]; congruence].
Qed.

(** C5. A string [S] other than the empty string compiles, at any path, to
    a condition whose [fn] is true on exactly the values that are strings
    starting with [S], and whose [matchWhenEmpty] is [S.length === 0], which
    is false. *)
Theorem compiled_string_tests_prefix (path S : string) :
  S <> "" ->
  exists c,
    compileCondition path (RStr S) = Ok c
    /\ (forall V, cond_fn c V = true
                  <-> exists rest, V = VStr (S ++ rest)%string)
    /\ cond_matchWhenEmpty c = Nat.eqb (String.length S) 0
    /\ cond_matchWhenEmpty c = false.
Proof.
  intros HS. simpl.
  destruct (String.eqb_spec S "") as [|_]; [contradiction|]; simpl.
  eexists; split; [reflexivity|]; simpl. repeat split.
  - destruct V; try discriminate. unfold startsWith.
    intros H; apply prefix_iff in H as [rest ->]; eauto.
  - intros [rest ->]. apply prefix_iff; eauto.
  - destruct S; [contradiction | reflexivity].
Qed.

Lemma combineConditionsOr_spec (conditions : list Condition) :
  (forall V, cond_fn (combineConditionsOr conditions) V = true
             <-> exists c, In c conditions /\ cond_fn c V = true)
  /\ (cond_matchWhenEmpty (combineConditionsOr conditions) = true
      <-> exists c, In c conditions /\ cond_matchWhenEmpty c = true).
Proof.
  destruct conditions as [|a [|b rest]].
  - simpl; split; [intros V|]; (split; [discriminate | intros (c & [] & _)]).
  - simpl; split; [intros V|];
      (split; [eauto | intros (c & [<-|[]] & H); exact H]).
  - unfold combineConditionsOr, some_condition.
    cbn [cond_fn cond_matchWhenEmpty].
    split; [intros V|]; apply existsb_exists.
Qed.

(** C6. The OR-combination of more than one condition is true on a value
    exactly when one of the conditions is, and its [matchWhenEmpty] is true
    exactly when that of one of the conditions is. *)
Theorem combineConditionsOr_any (conditions : list Condition) :
  1 < List.length conditions ->
  (forall V, cond_fn (combineConditionsOr conditions) V = true
             <-> exists c, In c conditions /\ cond_fn c V = true)
  /\ (cond_matchWhenEmpty (combineConditionsOr conditions) = true
      <-> exists c, In c conditions /\ cond_matchWhenEmpty c = true).
Proof. intros _. apply combineConditionsOr_spec. Qed.

Lemma returned_throw_error {A : Type} (path : string) (value : raw)
    (message : string) :
  returned (@throw_error A path value message) = None.
Proof. unfold throw_error. destruct (conversion_failure value); reflexivity. Qed.

Lemma throw_error_not_Ok {A : Type} (path : string) (value : raw)
    (message : string) (a : A) :
  throw_error path value message <> Ok a.
Proof. unfold throw_error. destruct (conversion_failure value); discriminate. Qed.

Ltac not_returned :=
  first [ discriminate
        | let H := fresh in intro H; now apply throw_error_not_Ok in H ].


Lemma returned_bind {A B : Type} (m1 m2 : result A) (k1 k2 : A -> result B) :
  returned m1 = returned m2 ->
  (forall a, returned (k1 a) = returned (k2 a)) ->
  returned (bind m1 k1) = returned (bind m2 k2).
Proof.
  destruct m1, m2; simpl; intros H Hk; try discriminate; auto.
  injection H as ->; apply Hk.
Qed.

Lemma returned_Ok {A : Type} (m : result A) (a : A) :
  returned m = Some a -> m = Ok a.
Proof. destruct m; simpl; congruence. Qed.

Lemma compile_items_independent (items : list raw) :
  Forall path_independent items ->
  forall p1 p2 i j,
    returned (compile_items compileCondition p1 items i)
    = returned (compile_items compileCondition p2 items j).
Proof.
  induction 1 as [|c rest Hc _ IH]; intros p1 p2 i j; simpl; [reflexivity|].
  apply returned_bind; [apply Hc|]; intros x.
  apply returned_bind; [apply IH | reflexivity].
Qed.

Lemma compile_keys_independent (props : list (string * raw)) :
  Forall (fun kv => deeply_path_independent (snd kv)) props ->
  forall p1 p2 conditions,
    returned (compile_keys compileCondition p1 props conditions)
    = returned (compile_keys compileCondition p2 props conditions).
Proof.
  induction 1 as [|[key value] rest [Hv Hitems] _ IH];
    intros p1 p2 conditions; simpl in *; [reflexivity|].
  destruct (String.eqb key "or").
  { destruct (raw_truthy value); [|apply IH].
    destruct (isArray value); simpl; [|now rewrite !returned_throw_error].
    apply returned_bind; [apply Hv | intros; apply IH]. }
  destruct (String.eqb key "and").
  { destruct (raw_truthy value); [|apply IH].
    destruct value; try (now rewrite !returned_throw_error).
    apply returned_bind; [now apply compile_items_independent | intros; apply IH]. }
  destruct (String.eqb key "not").
  { destruct (raw_truthy value); [|apply IH].
    apply returned_bind; [apply Hv | intros; apply IH]. }
  now rewrite !returned_throw_error.
Qed.

Lemma compileCondition_path_independent (C : raw) : deeply_path_independent C.
Proof.
  induction C as [items IH | props IH | r Hr] using raw_nested_ind.
  - assert (Forall path_independent items) as Hitems.
    { eapply Forall_impl; [|exact IH]. now intros a [Ha _]. }
    split; [|exact Hitems].
    intros p1 p2; simpl.
    apply returned_bind; [now apply compile_items_independent | reflexivity].
  - split; [|exact I].
    intros p1 p2; simpl.
    apply returned_bind; [now apply compile_keys_independent|].
    intros [|c cs]; [now rewrite !returned_throw_error | reflexivity].
  - destruct r; try discriminate; (split; [|exact I]); intros p1 p2; simpl;
      repeat match goal with
             | |- context [if ?b then _ else _] => destruct b; simpl
             end;
      rewrite ?returned_throw_error; reflexivity.
Qed.

Lemma compilable_truthy (path : string) (C : raw) (c : Condition) :
  compileCondition path C = Ok c -> C <> RStr "" -> raw_truthy C = true.
Proof.
  intros H Hne. destruct C; simpl in *; try reflexivity;
    try (now apply throw_error_not_Ok in H).
  - destruct b; [reflexivity | now apply throw_error_not_Ok in H].
  - destruct (Z.eqb n 0); [now apply throw_error_not_Ok in H | reflexivity].
  - destruct (String.eqb_spec s "") as [->|_]; [contradiction | reflexivity].
Qed.

(** C7 as the code has it.  For a condition [C] that compiles and is not the
    empty string, [{ not: C }] compiles to a condition whose [fn] is the
    negation of the [fn] of the compiled [C] on every value and whose
    [matchWhenEmpty] is the negation of that of the compiled [C]. *)
Theorem not_negates_compiled_condition
    (path path' : string) (C : raw) (c : Condition) :
  C <> RStr "" ->
  compileCondition path' C = Ok c ->
  exists c',
    compileCondition path (RObj [("not", C)]) = Ok c'
    /\ (forall V, cond_fn c' V = negb (cond_fn c V))
    /\ cond_matchWhenEmpty c' = negb (cond_matchWhenEmpty c).
Proof.
  intros Hne Hc.
  pose proof (@compilable_truthy _ _ _ Hc Hne) as Ht.
  assert (compileCondition (path ++ ".not")%string C = Ok c) as Hnot.
  { apply returned_Ok.
    rewrite (proj1 (compileCondition_path_independent C) _ path').
    now rewrite Hc. }
  cbn [compileCondition is_empty_string raw_truthy negb compile_keys].
  cbn [String.eqb Ascii.eqb Bool.eqb].
  rewrite Ht, Hnot; simpl.
  eexists; split; [reflexivity|]; simpl; auto.
Qed.

(** C7, the claim as it is written, fails for the empty string: [""] is a
    condition that compiles, and [{ not: "" }] does not, because a falsy
    value under [not] is skipped and no condition is left. *)
Lemma not_of_empty_string_is_rejected :
  (exists c, compileCondition "ruleSet[0].test" (RStr "") = Ok c)
  /\ compileCondition "ruleSet[0].test" (RObj [("not", RStr "")])
     = Err (error "ruleSet[0].test" (RObj [("not", RStr "")])
              "Expected condition, but got empty thing").
Proof. split; [eexists|]; reflexivity. Qed.

(** C8. The OR-combination and the AND-combination of a single condition
    are that condition: its [matchWhenEmpty] and its [fn] are returned as
    they are, whatever [fn] is on the empty string. *)
Theorem combine_single_condition_unchanged (c : Condition) :
  combineConditionsOr [c] = c
  /\ combineConditionsAnd [c] = c
  /\ cond_matchWhenEmpty (combineConditionsOr [c]) = cond_matchWhenEmpty c
  /\ cond_matchWhenEmpty (combineConditionsAnd [c]) = cond_matchWhenEmpty c.
Proof. repeat split. Qed.

(* ================================================================== *)
(** ** Properties of the rule compiler *)

Lemma with_property_assoc {A : Type} (key : string) (k : raw -> A) (absent : A)
    (props : list (string * raw)) :
  with_property key k absent props
  = match assoc key props with Some v => k v | None => absent end.
Proof.
  induction props as [|[key' v] rest IH]; simpl; [reflexivity|].
  destruct (String.eqb key key'); [reflexivity | exact IH].
Qed.


Section Compiler_properties.

Variable taps : list handler.




End Compiler_properties.

(** C9. [compile([{ rules: "not-an-array" }])] throws the compile error
    with the message "Rule.rules must be an array of rules".  The code
    misses this for a non-array value without string conversion:
    [compile([{ rules: { toString: 1 } }])] calls [error] with that
    message, the template literal of [error] throws a [TypeError] while it
    converts the value, and no compile error is thrown. *)
Theorem non_array_rules_without_string_conversion :
  compile [] [RObj [("rules", RStr "not-an-array")]]
  = Err (error "ruleSet[0]" (RStr "not-an-array")
           "Rule.rules must be an array of rules")
  /\ isArray (RObj [("toString", RNum 1)]) = false
  /\ compile [] [RObj [("rules", RObj [("toString", RNum 1)])]]
     = Raise TypeError
  /\ (forall e, compile [] [RObj [("rules", RObj [("toString", RNum 1)])]]
                <> Err e).
Proof. repeat split; try reflexivity. discriminate. Qed.

(* ================================================================== *)
(** ** Resolution of property paths *)

Section Resolution.

Variable data : obj.

Lemma is_defined_iff (v : value) : is_defined v = true <-> v <> VUndefined.
Proof. destruct v; simpl; split; congruence. Qed.

Lemma get_own (own : list (string * value)) (proto : option obj)
    (k : string) (v : value) :
  assoc k own = Some v -> get (Obj own proto) k = v.
Proof. simpl; now intros ->. Qed.

Lemma get_absent (k : string) (o : obj) :
  has_property k o = false -> get o k = VUndefined.
Proof.
  revert o; fix IH 1; intros [own proto]; simpl.
  destruct (assoc k own); [discriminate|].
  destruct proto as [p|]; [apply IH | reflexivity].
Qed.

Lemma own_path_walk (p : list string) (current v : value) :
  own_path current p v -> walk p current = v.
Proof.
  induction 1 as [v|o k v rest w Hk _ IH]; simpl; [reflexivity|].
  rewrite Hk. destruct o as [own proto]; simpl in *. now rewrite Hk.
Qed.

Lemma walk_own_path (p : list string) (current : value) :
  walk p current <> VUndefined -> own_path current p (walk p current).
Proof.
  revert current; induction p as [|k rest IH]; intros current; simpl.
  - constructor.
  - destruct current as [| | | | | |[own proto]]; simpl;
      rewrite ?andb_false_r; simpl; try (intros H; congruence).
    destruct (assoc k own) as [v|] eqn:Hk; [|congruence].
    intros H. econstructor; [exact Hk | now apply IH].
Qed.

(** C10. The two shapes of a property path are resolved differently.  An
    array path resolves to a value exactly when that value is reached from
    the input record through own properties only, every step starting from
    an object, and is not [undefined].  A string path resolves to
    [data[p]], found on the record or on its prototype chain, exactly when
    that is not [undefined].  So a property that the record inherits is
    seen by the string path and absent for the array path of that one
    name; and an absent value leaves the decision to [matchWhenEmpty]. *)
Theorem property_paths_resolve_asymmetrically :
  (forall p v,
      resolve data (Multi p) = Some v
      <-> own_path (VObj data) p v /\ v <> VUndefined)
  /\ (forall k v,
        resolve data (Single k) = Some v
        <-> get data k = v /\ v <> VUndefined)
  /\ (forall own proto k v,
        data = Obj own (Some proto) ->
        assoc k own = None ->
        get proto k = v ->
        v <> VUndefined ->
        resolve data (Single k) = Some v /\ resolve data (Multi [k]) = None)
  /\ (forall c st,
        resolve data (property c) = None ->
        eval_conditions data [c] st = (matchWhenEmpty c, st)).
Proof.
  split; [|split; [|split]].
  - intros p v; unfold resolve; split.
    + destruct (is_defined (walk p (VObj data))) eqn:Hd; [|discriminate].
      intros [= <-]. apply is_defined_iff in Hd.
      split; [now apply walk_own_path | exact Hd].
    + intros [Hp Hv]. rewrite (own_path_walk Hp).
      apply is_defined_iff in Hv. now rewrite Hv.
  - intros k v; unfold resolve; split.
    + destruct (has_property k data); [|discriminate].
      destruct (is_defined (get data k)) eqn:Hd; [|discriminate].
      intros [= <-]. now apply is_defined_iff in Hd.
    + intros [<- Hv].
      destruct (has_property k data) eqn:Hin.
      * apply is_defined_iff in Hv. now rewrite Hv.
      * now rewrite (get_absent _ _ Hin) in Hv.
  - intros own proto k v -> Hown Hget Hv; unfold resolve; simpl.
    rewrite Hown, Hget.
    destruct (has_property k proto) eqn:Hin.
    + apply is_defined_iff in Hv. now rewrite Hv.
    + rewrite (get_absent _ _ Hin) in Hget. congruence.
  - intros c st Hres; simpl. rewrite Hres.
    destruct (matchWhenEmpty c); reflexivity.
Qed.

End Resolution.

(* ================================================================== *)
(** ** The statements at sample inputs *)

Import Sample.

Example exec_one_of_x :
  exec record_x [one_of_x] = [use "A"] /\ exec record_y [one_of_x] = [use "B"].
Proof. split; reflexivity. Qed.

Example exec_rules_x : exec record_x [rules_x] = [use "A"; use "B"].
Proof. reflexivity. Qed.

Example resolve_description_data :
  resolve record_x (Multi ["descriptionData"; "type"]) = Some (VStr "module")
  /\ resolve record_y (Multi ["descriptionData"; "type"]) = None
  /\ resolve record_x (Multi ["descriptionData"; "name"]) = None
  /\ resolve record_x (Multi ["resource"; "length"]) = None.
Proof. repeat split; reflexivity. Qed.

Example combine_keeps_matchWhenEmpty :
  let c := mkCondition true (fun _ => false) in
  cond_matchWhenEmpty (combineConditionsOr [c]) = true
  /\ cond_matchWhenEmpty (combineConditionsAnd [c]) = true
  /\ cond_fn (combineConditionsOr [c]) (VStr "") = false.
Proof. repeat split; reflexivity. Qed.

Example compile_nested_conditions :
  returned (compileCondition "c" (RObj [("and", RArr [RStr "a"; RStr ""])]))
  <> None
  /\ compileCondition "c" (RObj [("or", RStr "a")])
     = Err (error "c.or" (RStr "a") "Expected array of conditions")
  /\ compileCondition "c" (RArr [RStr "a"; RNum 0])
     = Err (error "c[1]" (RNum 0) "Expected condition but got falsy value")
  /\ compileCondition "c" (RObj [("test", RStr "a")])
     = Err (error "c.test" (RStr "a") "Unexpected property test in condition")
  /\ compileCondition "c" (RObj [])
     = Err (error "c" (RObj []) "Expected condition, but got empty thing").
Proof. repeat split; try reflexivity. discriminate. Qed.

Example exec_top_level :
  exec record_x [test_use "x" "X"; test_use "y" "Y"] = [use "X"]
  /\ exec record_y [test_use "x" "X"; test_use "y" "Y"] = [use "Y"]
  /\ exec (Obj [("resource", VStr "c/f")] None)
          [test_use "x" "X"; test_use "y" "Y"] = [].
Proof. repeat split; reflexivity. Qed.

Lemma execRule_fails_at_first_failing_condition_witness :
  conditions guarded = [no_issuer] ++ test "y" :: [test "x"]
  /\ all_pass record_x [no_issuer] = true
  /\ execRule record_x guarded busy_store
     = (false,
        mkStore [use "Z"]
          [Enter guarded; Test (test "y") (VStr "x/index.js")]).
Proof.
  split; [reflexivity|]. split; [reflexivity|].
  apply (proj1 (@execRule_fails_at_first_failing_condition
                  record_x guarded busy_store
                  [no_issuer] [test "x"] (test "y")
                  eq_refl eq_refl
                  (or_introl
                     (ex_intro _ (VStr "x/index.js") (conj eq_refl eq_refl))))).
Defined.

Lemma oneOf_stops_after_first_match_witness :
  all_pass record_x (conditions one_of_yx) = true
  /\ oneOf one_of_yx = Some ([test_use "y" "C"] ++ test_use "x" "A" :: [use_only "B"])
  /\ matches record_x (test_use "y" "C") = false
  /\ matches record_x (test_use "x" "A") = true
  /\ outEffects (snd (execRule record_x one_of_yx busy_store))
     = outEffects (before_oneOf record_x one_of_yx busy_store)
       ++ outEffects (rule_run record_x (test_use "x" "A"))
  /\ trace (snd (execRule record_x one_of_yx busy_store))
     = trace (before_oneOf record_x one_of_yx busy_store)
       ++ trace (runs record_x ([test_use "y" "C"] ++ [test_use "x" "A"])).
Proof.
  do 4 (split; [reflexivity|]).
  destruct (@oneOf_stops_after_first_match
              record_x one_of_yx busy_store
              [test_use "y" "C"; test_use "x" "A"; use_only "B"]
              eq_refl eq_refl) as [Hstop _].
  assert (Forall (fun r => matches record_x r = false) [test_use "y" "C"])
    as Hpre by (repeat constructor).
  destruct (Hstop [test_use "y" "C"] (test_use "x" "A") [use_only "B"]
              eq_refl Hpre eq_refl)
    as (_ & Heffects & Htrace).
  split; [exact Heffects | exact Htrace].
Defined.

Lemma exec_runs_every_rule_in_order_witness :
  all_pass record_x (conditions rules_x) = true
  /\ rules rules_x = Some [test_use "x" "A"; use_only "B"]
  /\ before_oneOf record_x rules_x busy_store
     = extend (before_rules record_x rules_x busy_store)
         (runs record_x [test_use "x" "A"; use_only "B"])
  /\ exec record_y [rules_x; test_use "y" "Y"]
     = outEffects (runs record_y [rules_x; test_use "y" "Y"]).
Proof.
  split; [reflexivity|]. split; [reflexivity|].
  destruct (exec_runs_every_rule_in_order record_x) as (_ & _ & _ & Hrules).
  destruct (exec_runs_every_rule_in_order record_y) as (Hexec & _).
  split.
  - exact (proj1 (Hrules rules_x busy_store _ eq_refl eq_refl)).
  - exact (proj1 (Hexec [rules_x; test_use "y" "Y"])).
Defined.

Lemma compiled_string_tests_prefix_witness :
  "x" <> ""
  /\ exists c,
       compileCondition "ruleSet[0].test" (RStr "x") = Ok c
       /\ (forall V, cond_fn c V = true
                     <-> exists rest, V = VStr ("x" ++ rest)%string)
       /\ cond_matchWhenEmpty c = Nat.eqb (String.length "x") 0
       /\ cond_matchWhenEmpty c = false.
Proof.
  assert ("x" <> "") as H by discriminate.
  split; [exact H|].
  exact (@compiled_string_tests_prefix "ruleSet[0].test" "x" H).
Defined.

Lemma combineConditionsOr_any_witness :
  let conditions :=
    [mkCondition false (fun v => match v with VStr t => startsWith t "a" | _ => false end);
     mkCondition true (fun v => match v with VStr t => String.eqb t "" | _ => false end)] in
  1 < List.length conditions
  /\ (cond_matchWhenEmpty (combineConditionsOr conditions) = true
      <-> exists c, In c conditions /\ cond_matchWhenEmpty c = true).
Proof.
  intros conditions.
  assert (1 < List.length conditions) as H by (simpl; lia).
  split; [exact H|].
  exact (proj2 (@combineConditionsOr_any conditions H)).
Defined.

Lemma not_negates_compiled_condition_witness :
  RStr "x" <> RStr ""
  /\ exists c c',
       compileCondition "ruleSet[0].test" (RStr "x") = Ok c
       /\ compileCondition "ruleSet[0].exclude" (RObj [("not", RStr "x")]) = Ok c'
       /\ (forall V, cond_fn c' V = negb (cond_fn c V))
       /\ cond_matchWhenEmpty c' = negb (cond_matchWhenEmpty c).
Proof.
  assert (RStr "x" <> RStr "") as H by discriminate.
  split; [exact H|].
  eexists.
  destruct (@not_negates_compiled_condition
              "ruleSet[0].exclude" "ruleSet[0].test" (RStr "x") _ H eq_refl)
    as (c' & Hc' & Hfn & Hempty).
  exists c'. split; [reflexivity|]. split; [exact Hc'|]. split; assumption.
Defined.


Lemma property_paths_resolve_asymmetrically_witness :
  assoc "toString" (own_props record_y) = None
  /\ get object_prototype "toString" = VFun "Object.prototype.toString"
  /\ resolve record_y (Single "toString")
     = Some (VFun "Object.prototype.toString")
  /\ resolve record_y (Multi ["toString"]) = None.
Proof.
  split; [reflexivity|]. split; [reflexivity|].
  destruct (property_paths_resolve_asymmetrically record_y)
    as (_ & _ & Hinherited & _).
  apply (Hinherited [("resource", VStr "y/index.js")] object_prototype
           "toString" (VFun "Object.prototype.toString")
           eq_refl eq_refl eq_refl).
  discriminate.
Defined.

(* ================================================================== *)
(** ** Further properties of the condition compiler *)

Lemma string_app_assoc (a b c : string) :
  ((a ++ b) ++ c)%string = (a ++ (b ++ c))%string.
Proof. induction a as [|x a IH]; simpl; [reflexivity | now rewrite IH]. Qed.

Lemma string_app_nil_r (a : string) : (a ++ "")%string = a.
Proof. induction a as [|x a IH]; simpl; [reflexivity | now rewrite IH]. Qed.

Lemma combineConditionsAnd_spec (conditions : list Condition) :
  conditions <> [] ->
  (forall V, cond_fn (combineConditionsAnd conditions) V = true
             <-> forall c, In c conditions -> cond_fn c V = true)
  /\ (cond_matchWhenEmpty (combineConditionsAnd conditions) = true
      <-> forall c, In c conditions -> cond_matchWhenEmpty c = true).
Proof.
  destruct conditions as [|a [|b rest]]; intros Hne.
  - contradiction.
  - simpl; split; [intros V|];
      (split; [intros H c [<-|[]]; exact H | intros H; apply H; now left]).
  - unfold combineConditionsAnd, every_condition.
    cbn [cond_fn cond_matchWhenEmpty].
    split; [intros V|]; apply forallb_forall.
Qed.

(** X1. The AND-combination of one or more conditions is true on a value
    exactly when all of them are, and its [matchWhenEmpty] is true exactly
    when that of all of them is; the AND-combination of no condition is true
    on no value and has [matchWhenEmpty] false. *)
Theorem combineConditionsAnd_all (conditions : list Condition) :
  conditions <> [] ->
  ((forall V, cond_fn (combineConditionsAnd conditions) V = true
              <-> forall c, In c conditions -> cond_fn c V = true)
   /\ (cond_matchWhenEmpty (combineConditionsAnd conditions) = true
       <-> forall c, In c conditions -> cond_matchWhenEmpty c = true))
  /\ (forall V, cond_fn (combineConditionsAnd []) V = false)
  /\ cond_matchWhenEmpty (combineConditionsAnd []) = false.
Proof.
  intros Hne. split; [now apply combineConditionsAnd_spec|].
  split; reflexivity.
Qed.

Lemma compiles_to_at (C : raw) (c : Condition) (path : string) :
  compiles_to C c -> compileCondition path C = Ok c.
Proof.
  intros [p Hp]. apply returned_Ok.
  rewrite (proj1 (compileCondition_path_independent C) path p).
  now rewrite Hp.
Qed.

Lemma compile_items_compiles (items : list raw) (cs : list Condition)
    (path : string) (i : nat) :
  Forall2 compiles_to items cs ->
  compile_items compileCondition path items i = Ok cs.
Proof.
  intros H; revert i; induction H as [|C c items cs HC _ IH]; intros i; simpl.
  - reflexivity.
  - rewrite (compiles_to_at _ HC); simpl. now rewrite IH.
Qed.

Lemma compile_items_inv (items : list raw) (cs : list Condition)
    (path : string) (i : nat) :
  compile_items compileCondition path items i = Ok cs ->
  Forall2 compiles_to items cs.
Proof.
  revert cs i; induction items as [|C items IH]; intros cs i; simpl.
  - intros [= <-]; constructor.
  - destruct (compileCondition _ C) as [c|e|x] eqn:HC; simpl; try discriminate.
    destruct (compile_items compileCondition path items (S i)) as [cs'|e|x]
      eqn:Hrest; simpl; try discriminate.
    intros [= <-]. constructor; [eexists; exact HC | eapply IH; exact Hrest].
Qed.

(** X2. An array of conditions compiles exactly when each of its items does, to
    the OR-combination of the compiled items: it is true on a value exactly
    when one of the compiled items is.  The empty array compiles, to a
    condition that is true on no value. *)
Theorem array_condition_is_or (path : string) (items : list raw) :
  (forall c,
      compileCondition path (RArr items) = Ok c
      <-> exists cs, Forall2 compiles_to items cs /\ c = combineConditionsOr cs)
  /\ (forall cs V,
        Forall2 compiles_to items cs ->
        (cond_fn (combineConditionsOr cs) V = true
         <-> exists ci, In ci cs /\ cond_fn ci V = true))
  /\ (items = [] ->
      exists c, compileCondition path (RArr items) = Ok c
                /\ forall V, cond_fn c V = false).
Proof.
  split; [|split].
  - intros c; simpl; split.
    + destruct (compile_items compileCondition path items 0) as [cs|e|x] eqn:H;
        simpl; try discriminate.
      intros [= <-]. exists cs; split; [|reflexivity].
      eapply compile_items_inv; exact H.
    + intros (cs & Hcs & ->).
      now rewrite (compile_items_compiles path 0 Hcs).
  - intros cs V _. apply combineConditionsOr_spec.
  - intros ->. eexists; split; reflexivity.
Qed.

Lemma compileCondition_object (path : string) (props : list (string * raw)) :
  compileCondition path (RObj props)
  = (conditions <- compile_keys compileCondition path props [] ;;
     match conditions with
     | [] => throw_error path (RObj props)
               "Expected condition, but got empty thing"
     | _ => Ok (combineConditionsAnd conditions)
     end).
Proof. reflexivity. Qed.

Lemma compile_keys_or (path : string) (value : raw)
    (rest : list (string * raw)) (conditions : list Condition) :
  raw_truthy value = true -> isArray value = true ->
  compile_keys compileCondition path (("or", value) :: rest) conditions
  = (c <- compileCondition (path ++ ".or")%string value ;;
     compile_keys compileCondition path rest (conditions ++ [c])).
Proof. intros Ht Ha; simpl. now rewrite Ht, Ha. Qed.

Lemma compile_keys_not (path : string) (value : raw)
    (rest : list (string * raw)) (conditions : list Condition) :
  raw_truthy value = true ->
  compile_keys compileCondition path (("not", value) :: rest) conditions
  = (matcher <- compileCondition (path ++ ".not")%string value ;;
     compile_keys compileCondition path rest
       (conditions ++
        [mkCondition (negb (cond_matchWhenEmpty matcher))
                     (fun v => negb (cond_fn matcher v))])).
Proof. intros Ht; simpl. now rewrite Ht. Qed.

Lemma compile_keys_and (path : string) (items : list raw)
    (rest : list (string * raw)) (conditions : list Condition) :
  compile_keys compileCondition path (("and", RArr items) :: rest) conditions
  = (cs <- compile_items compileCondition (path ++ ".and")%string items 0 ;;
     compile_keys compileCondition path rest (conditions ++ cs)).
Proof. reflexivity. Qed.

(** X3. The object form [{ or: items }] compiles exactly when the array
    [items] does, and to the same condition. *)
Theorem or_key_is_array (path path' : string) (items : list raw) :
  returned (compileCondition path (RObj [("or", RArr items)]))
  = returned (compileCondition path' (RArr items)).
Proof.
  rewrite (proj1 (compileCondition_path_independent (RArr items))
             path' (path ++ ".or")%string).
  rewrite compileCondition_object, compile_keys_or by reflexivity.
  destruct (compileCondition (path ++ ".or") (RArr items)) as [c|e|x];
    reflexivity.
Qed.

(** X4. The object form [{ and: items }] compiles exactly when [items] is not
    empty and each item compiles, to the AND-combination of the compiled
    items: it is then true on a value exactly when all compiled items are.
    [{ and: [] }] is a compile error. *)
Theorem and_key_is_and (path : string) (items : list raw) :
  (forall c,
      compileCondition path (RObj [("and", RArr items)]) = Ok c
      <-> exists cs, cs <> [] /\ Forall2 compiles_to items cs
                     /\ c = combineConditionsAnd cs)
  /\ (forall cs V,
        cs <> [] -> Forall2 compiles_to items cs ->
        (cond_fn (combineConditionsAnd cs) V = true
         <-> forall ci, In ci cs -> cond_fn ci V = true))
  /\ (items = [] ->
      compileCondition path (RObj [("and", RArr items)])
      = Err (error path (RObj [("and", RArr items)])
               "Expected condition, but got empty thing")).
Proof.
  assert (compileCondition path (RObj [("and", RArr items)])
          = match compile_items compileCondition (path ++ ".and") items 0 with
            | Ok [] => Err (error path (RObj [("and", RArr items)])
                              "Expected condition, but got empty thing")
            | Ok cs => Ok (combineConditionsAnd cs)
            | Err e => Err e
            | Raise x => Raise x
            end) as Hunfold.
  { rewrite compileCondition_object, compile_keys_and.
    destruct (compile_items compileCondition (path ++ ".and") items 0)
      as [[|c cs]|e|x]; reflexivity. }
  split; [|split].
  - intros c; rewrite Hunfold; split.
    + destruct (compile_items compileCondition (path ++ ".and") items 0)
        as [[|c1 cs]|e|x] eqn:H; try discriminate.
      intros [= <-]. exists (c1 :: cs). split; [discriminate|].
      split; [|reflexivity]. eapply compile_items_inv; exact H.
    + intros (cs & Hne & Hcs & ->).
      rewrite (compile_items_compiles _ 0 Hcs).
      destruct cs; [contradiction | reflexivity].
  - intros cs V Hne _. now apply combineConditionsAnd_spec.
  - intros ->. reflexivity.
Qed.

Lemma existsb_agree {A : Type} (f g : A -> bool) (l : list A) :
  Forall (fun a => f a = g a) l -> existsb f l = existsb g l.
Proof. induction 1 as [|a l Ha _ IH]; simpl; [reflexivity | now rewrite Ha, IH]. Qed.

Lemma forallb_agree {A : Type} (f g : A -> bool) (l : list A) :
  Forall (fun a => f a = g a) l -> forallb f l = forallb g l.
Proof. induction 1 as [|a l Ha _ IH]; simpl; [reflexivity | now rewrite Ha, IH]. Qed.

(** Induction over what [compileCondition] returns: a property of
    conditions that holds of the four compiled leaves and is kept by the
    three combinations holds of every compiled condition. *)
Section Compiled_condition_induction.

Variable Inv : Condition -> Prop.

Hypothesis Inv_empty :
  Inv (mkCondition true
       (fun str => match str with VStr s => String.eqb s "" | _ => false end)).
Hypothesis Inv_string : forall s, s <> "" ->
  Inv (mkCondition (Nat.eqb (String.length s) 0)
       (fun str => match str with VStr t => startsWith t s | _ => false end)).
Hypothesis Inv_function : forall f, Inv (mkCondition (f (VStr "")) f).
Hypothesis Inv_regexp : forall test,
  Inv (mkCondition (test "")
       (fun v => match v with VStr t => test t | _ => false end)).
Hypothesis Inv_or : forall cs, Forall Inv cs -> Inv (combineConditionsOr cs).
Hypothesis Inv_and : forall cs, cs <> [] -> Forall Inv cs -> Inv (combineConditionsAnd cs).
Hypothesis Inv_not : forall c, Inv c ->
  Inv (mkCondition (negb (cond_matchWhenEmpty c)) (fun v => negb (cond_fn c v))).

Lemma compile_items_invariant (items : list raw) :
  Forall (fun C => forall path c, compileCondition path C = Ok c -> Inv c) items ->
  forall path i cs,
    compile_items compileCondition path items i = Ok cs -> Forall Inv cs.
Proof.
  induction 1 as [|C items HC _ IH]; intros path i cs; simpl.
  - intros [= <-]; constructor.
  - destruct (compileCondition _ C) as [c|e|x] eqn:Hc; simpl; try discriminate.
    destruct (compile_items compileCondition path items (S i)) as [cs'|e|x]
      eqn:Hrest; simpl; try discriminate.
    intros [= <-]. constructor; [eapply HC; exact Hc | eapply IH; exact Hrest].
Qed.

Lemma compile_keys_invariant (props : list (string * raw)) :
  Forall (fun kv =>
            (forall path c, compileCondition path (snd kv) = Ok c -> Inv c)
            /\ match snd kv with
               | RArr items =>
                   Forall (fun C => forall path c,
                             compileCondition path C = Ok c -> Inv c) items
               | _ => True
               end) props ->
  forall path conditions cs,
    Forall Inv conditions ->
    compile_keys compileCondition path props conditions = Ok cs ->
    Forall Inv cs.
Proof.
  induction 1 as [|[key value] rest [Hv Hitems] _ IH];
    intros path conditions cs Hacc; simpl in *.
  - now intros [= <-].
  - destruct (String.eqb key "or").
    { destruct (raw_truthy value); [|now apply IH].
      destruct (isArray value); simpl; try not_returned.
      destruct (compileCondition _ value) as [c|e|x] eqn:Hc; simpl; try discriminate.
      apply IH. apply Forall_app; split; [exact Hacc|].
      constructor; [eapply Hv; exact Hc | constructor]. }
    destruct (String.eqb key "and").
    { destruct (raw_truthy value); [|now apply IH].
      destruct value; try not_returned.
      destruct (compile_items compileCondition _ items 0) as [cs'|e|x] eqn:Hc;
        simpl; try discriminate.
      apply IH. apply Forall_app; split; [exact Hacc|].
      eapply compile_items_invariant; [exact Hitems | exact Hc]. }
    destruct (String.eqb key "not").
    { destruct (raw_truthy value); [|now apply IH].
      destruct (compileCondition _ value) as [c|e|x] eqn:Hc; simpl; try discriminate.
      apply IH. apply Forall_app; split; [exact Hacc|].
      constructor; [apply Inv_not; eapply Hv; exact Hc | constructor]. }
    not_returned.
Qed.

Lemma compiled_condition_ind (C : raw) :
  (forall path c, compileCondition path C = Ok c -> Inv c)
  /\ match C with
     | RArr items =>
         Forall (fun C => forall path c, compileCondition path C = Ok c -> Inv c)
                items
     | _ => True
     end.
Proof.
  induction C as [items IH | props IH | r Hr] using raw_nested_ind.
  - assert (Forall (fun C => forall path c,
                      compileCondition path C = Ok c -> Inv c) items) as Hitems.
    { eapply Forall_impl; [|exact IH]. now intros a [Ha _]. }
    split; [|exact Hitems].
    intros path c; simpl.
    destruct (compile_items compileCondition path items 0) as [cs|e|x] eqn:Hc;
      simpl; try discriminate.
    intros [= <-]. apply Inv_or.
    eapply compile_items_invariant; [exact Hitems | exact Hc].
  - split; [|exact I].
    intros path c; rewrite compileCondition_object.
    destruct (compile_keys compileCondition path props []) as [cs|e|x] eqn:Hc;
      simpl; try discriminate.
    destruct cs as [|c1 cs]; [not_returned|].
    intros [= <-]. change (Inv (combineConditionsAnd (c1 :: cs))).
    apply Inv_and; [discriminate|].
    eapply compile_keys_invariant; [exact IH | constructor | exact Hc].
  - destruct r; try discriminate; (split; [|exact I]); intros path c; simpl;
      try not_returned.
    + destruct b; not_returned.
    + destruct (Z.eqb n 0); not_returned.
    + destruct (String.eqb_spec s "") as [->|Hs]; simpl.
      * intros [= <-]; exact Inv_empty.
      * intros [= <-]; now apply Inv_string.
    + intros [= <-]; apply Inv_function.
    + intros [= <-]; apply Inv_regexp.
Qed.

End Compiled_condition_induction.

(** X5. Every compiled condition has as [matchWhenEmpty] the verdict of its
    own [fn] on the empty string: an absent value is treated as the empty
    string would be. *)
Theorem matchWhenEmpty_is_verdict_on_empty_string
    (path : string) (C : raw) (c : Condition) :
  compileCondition path C = Ok c ->
  cond_matchWhenEmpty c = cond_fn c (VStr "").
Proof.
  revert path c.
  refine (proj1 (@compiled_condition_ind probes_empty_string
                   _ _ _ _ _ _ _ C));
    unfold probes_empty_string.
  - reflexivity.
  - intros [|a s] Hs; [contradiction | reflexivity].
  - reflexivity.
  - reflexivity.
  - intros [|a [|b cs]] H; [reflexivity | now inversion H |].
    unfold combineConditionsOr, some_condition.
    cbn [cond_fn cond_matchWhenEmpty]. now apply existsb_agree.
  - intros [|a [|b cs]] _ H; [reflexivity | now inversion H |].
    unfold combineConditionsAnd, every_condition.
    cbn [cond_fn cond_matchWhenEmpty]. now apply forallb_agree.
  - intros c H; simpl. now rewrite H.
Qed.

(** X6. Whether a raw condition compiles, and the condition it compiles to, are
    the same at every path: the path only shows in the errors. *)
Theorem compiled_condition_ignores_path (p1 p2 : string) (C : raw) :
  returned (compileCondition p1 C) = returned (compileCondition p2 C)
  /\ (forall c, compileCondition p1 C = Ok c -> compileCondition p2 C = Ok c).
Proof.
  pose proof (proj1 (compileCondition_path_independent C) p1 p2) as H.
  split; [exact H|].
  intros c Hc. apply returned_Ok. now rewrite <- H, Hc.
Qed.

Lemma located_under_refl (path : string) : located_under path path.
Proof. exists ""; symmetry; apply string_app_nil_r. Qed.

Lemma located_under_app (path step full : string) :
  located_under (path ++ step)%string full -> located_under path full.
Proof.
  intros [suffix ->]. exists (step ++ suffix)%string. apply string_app_assoc.
Qed.

Lemma throw_error_Err {A : Type} (path : string) (value : raw)
    (message : string) (e : CompileError) :
  @throw_error A path value message = Err e ->
  e = error path value message.
Proof.
  unfold throw_error. destruct (conversion_failure value); [discriminate|].
  now intros [= <-].
Qed.

Lemma reports_here (path : string) (root : raw) (message : string)
    (e : CompileError) :
  e = error path root message -> reports path root e.
Proof.
  intros ->. exists []; simpl. split; [|constructor].
  symmetry; apply string_app_nil_r.
Qed.

Lemma compile_items_reports (items : list raw) :
  Forall (fun C => forall path e,
            compileCondition path C = Err e -> reports path C e) items ->
  forall path i e,
    compile_items compileCondition path items i = Err e ->
    exists j item steps,
      nth_error items j = Some item
      /\ err_path e = (path ++ render (Index (i + j) :: steps))%string
      /\ leads_to item steps (err_value e).
Proof.
  induction 1 as [|C items HC _ IH]; intros path i e; simpl; [discriminate|].
  destruct (compileCondition _ C) as [c|e'|x] eqn:Hc; simpl; try discriminate.
  - destruct (compile_items compileCondition path items (S i)) as [cs|e''|x]
      eqn:Hrest; simpl; try discriminate.
    intros [= <-].
    destruct (IH _ _ _ Hrest) as (j & item & steps & Hj & Hpath & Hnode).
    exists (S j), item, steps. split; [exact Hj|]. split; [|exact Hnode].
    now rewrite Nat.add_succ_r.
  - intros [= <-].
    destruct (HC _ _ Hc) as (steps & Hpath & Hnode).
    exists 0, C, steps. split; [reflexivity|]. split; [|exact Hnode].
    rewrite Hpath, Nat.add_0_r; simpl. apply string_app_assoc.
Qed.

Lemma compile_keys_reports (props : list (string * raw)) :
  Forall (fun kv =>
            (forall path e, compileCondition path (snd kv) = Err e ->
                            reports path (snd kv) e)
            /\ match snd kv with
               | RArr items =>
                   Forall (fun C => forall path e,
                             compileCondition path C = Err e ->
                             reports path C e) items
               | _ => True
               end) props ->
  forall path conditions e,
    compile_keys compileCondition path props conditions = Err e ->
    exists k v steps,
      In (k, v) props
      /\ err_path e = (path ++ render (Key k :: steps))%string
      /\ leads_to v steps (err_value e).
Proof.
  assert (forall path key value message e,
            e = error (path ++ "." ++ key)%string value message ->
            err_path e = (path ++ render [Key key])%string
            /\ leads_to value [] (err_value e)) as Hhere.
  { intros path key value message e ->; simpl.
    split; [now rewrite string_app_nil_r | constructor]. }
  assert (forall path key value e,
            reports (path ++ "." ++ key)%string value e ->
            exists steps,
              err_path e = (path ++ render (Key key :: steps))%string
              /\ leads_to value steps (err_value e)) as Hbelow.
  { intros path key value e (steps & Hpath & Hnode).
    exists steps. split; [|exact Hnode].
    rewrite Hpath; simpl. now rewrite !string_app_assoc. }
  induction 1 as [|[key value] rest [Hv Hitems] _ IH];
    intros path conditions e; simpl in *; [discriminate|].
  assert (forall conditions,
            compile_keys compileCondition path rest conditions = Err e ->
            exists k v steps,
              In (k, v) ((key, value) :: rest)
              /\ err_path e = (path ++ render (Key k :: steps))%string
              /\ leads_to v steps (err_value e)) as Hrest.
  { intros cs H. destruct (IH _ _ _ H) as (k & v & steps & Hin & Hp & Hn).
    exists k, v, steps. split; [now right | now split]. }
  destruct (String.eqb_spec key "or") as [->|_].
  { destruct (raw_truthy value); [|apply Hrest].
    destruct (isArray value); simpl.
    - destruct (compileCondition _ value) as [c|e'|x] eqn:Hc; simpl;
        try discriminate; [apply Hrest|].
      intros [= <-].
      destruct (Hbelow path "or" value _ (Hv _ _ Hc)) as (steps & Hp & Hn).
      exists "or", value, steps. split; [now left | now split].
    - intros H. apply throw_error_Err in H.
      exists "or", value, []. split; [now left|].
      exact (Hhere path "or" value _ e H). }
  destruct (String.eqb_spec key "and") as [->|_].
  { destruct (raw_truthy value); [|apply Hrest].
    destruct value;
      try (intros H; apply throw_error_Err in H;
           eexists "and", _, []; split; [now left|];
           exact (Hhere path "and" _ _ e H)).
    destruct (compile_items compileCondition _ items 0) as [cs|e'|x] eqn:Hc;
      simpl; try discriminate; [apply Hrest|].
    intros [= <-].
    destruct (compile_items_reports Hitems _ _ Hc)
      as (j & item & steps & Hj & Hp & Hn).
    exists "and", (RArr items), (Index j :: steps).
    split; [now left|]. split.
    - rewrite Hp; simpl. now rewrite !string_app_assoc.
    - econstructor; [exact Hj | exact Hn]. }
  destruct (String.eqb_spec key "not") as [->|_].
  { destruct (raw_truthy value); [|apply Hrest].
    destruct (compileCondition _ value) as [c|e'|x] eqn:Hc; simpl;
      try discriminate; [apply Hrest|].
    intros [= <-].
    destruct (Hbelow path "not" value _ (Hv _ _ Hc)) as (steps & Hp & Hn).
    exists "not", value, steps. split; [now left | now split]. }
  intros H. apply throw_error_Err in H.
  exists key, value, []. split; [now left|].
  exact (Hhere path key value _ e H).
Qed.

Lemma compileCondition_reports (C : raw) :
  (forall path e, compileCondition path C = Err e -> reports path C e)
  /\ match C with
     | RArr items =>
         Forall (fun C => forall path e,
                   compileCondition path C = Err e -> reports path C e) items
     | _ => True
     end.
Proof.
  induction C as [items IH | props IH | r Hr] using raw_nested_ind.
  - assert (Forall (fun C => forall path e,
                      compileCondition path C = Err e -> reports path C e)
                   items) as Hitems.
    { eapply Forall_impl; [|exact IH]. now intros a [Ha _]. }
    split; [|exact Hitems].
    intros path e; simpl.
    destruct (compile_items compileCondition path items 0) as [cs|e'|x] eqn:Hc;
      simpl; try discriminate.
    intros [= <-].
    destruct (compile_items_reports Hitems _ _ Hc)
      as (j & item & steps & Hj & Hp & Hn).
    exists (Index j :: steps). split; [exact Hp|].
    econstructor; [exact Hj | exact Hn].
  - split; [|exact I].
    intros path e; rewrite compileCondition_object.
    destruct (compile_keys compileCondition path props []) as [cs|e'|x] eqn:Hc;
      simpl; try discriminate.
    + destruct cs; [|discriminate].
      intros H. apply throw_error_Err in H. eapply reports_here; exact H.
    + intros [= <-].
      destruct (compile_keys_reports IH _ _ Hc)
        as (k & v & steps & Hin & Hp & Hn).
      exists (Key k :: steps). split; [exact Hp|].
      econstructor; [exact Hin | exact Hn].
  - destruct r; try discriminate; (split; [|exact I]); intros path e; simpl;
      repeat match goal with
             | |- context [if ?b then _ else _] => destruct b; simpl
             end;
      try discriminate;
      intros H; apply throw_error_Err in H; eapply reports_here; exact H.
Qed.

(** X7. Every compile error that [compileCondition] throws reports the node
    it is about: the path of the error is the path of the call followed by
    the keys ([.key]) and indices ([[i]]) of the steps that lead from the
    condition to a node inside it, and the value of the error is that
    node.  This covers the error of the [catch] of a condition function;
    an exception of the string conversion is no compile error. *)
Theorem condition_errors_are_located
    (path : string) (C : raw) (e : CompileError) :
  compileCondition path C = Err e ->
  exists steps,
    err_path e = (path ++ render steps)%string
    /\ leads_to C steps (err_value e).
Proof. apply (proj1 (compileCondition_reports C)). Qed.

Lemma not_key_compiles (path : string) (C : raw) (c : Condition) :
  raw_truthy C = true ->
  compiles_to C c ->
  compileCondition path (RObj [("not", C)])
  = Ok (mkCondition (negb (cond_matchWhenEmpty c))
                    (fun v => negb (cond_fn c v))).
Proof.
  intros Ht Hc.
  rewrite compileCondition_object, compile_keys_not by exact Ht.
  now rewrite (compiles_to_at _ Hc).
Qed.

(** X10. Negating twice gives back the condition: for a condition [C] that
    compiles and is not the empty string, [{ not: { not: C } }] compiles to
    a condition with the [fn] (on every value) and the [matchWhenEmpty] of
    the compiled [C]. *)
Theorem double_not_is_identity
    (path path' : string) (C : raw) (c : Condition) :
  C <> RStr "" ->
  compileCondition path' C = Ok c ->
  exists c'',
    compileCondition path (RObj [("not", RObj [("not", C)])]) = Ok c''
    /\ (forall V, cond_fn c'' V = cond_fn c V)
    /\ cond_matchWhenEmpty c'' = cond_matchWhenEmpty c.
Proof.
  intros Hne Hc.
  pose proof (@compilable_truthy _ _ _ Hc Hne) as Ht.
  assert (compiles_to C c) as HC by (eexists; exact Hc).
  eexists. split.
  - apply not_key_compiles; [reflexivity|].
    exists path. apply (not_key_compiles path Ht HC).
  - simpl; split; [intros V|]; apply negb_involutive.
Qed.

Lemma returned_bind_none {A B : Type} (m : result A) (k : A -> result B) :
  (forall a, returned (k a) = None) -> returned (bind m k) = None.
Proof. destruct m; simpl; auto. Qed.

Lemma compile_keys_unknown (props : list (string * raw)) :
  (exists key value, In (key, value) props
                     /\ key <> "or" /\ key <> "and" /\ key <> "not") ->
  forall path conditions,
    returned (compile_keys compileCondition path props conditions) = None.
Proof.
  induction props as [|[k v] rest IH]; intros (key & value & Hin & Hor & Hand & Hnot);
    [destruct Hin|].
  intros path conditions; simpl.
  destruct Hin as [[= -> ->]|Hin].
  - destruct (String.eqb_spec key "or"); [contradiction|].
    destruct (String.eqb_spec key "and"); [contradiction|].
    destruct (String.eqb_spec key "not"); [contradiction|].
    apply returned_throw_error.
  - assert (forall p cs,
              returned (compile_keys compileCondition p rest cs) = None) as Hrest.
    { apply IH. exists key, value; auto. }
    destruct (String.eqb k "or").
    { destruct (raw_truthy v); [|apply Hrest].
      destruct (isArray v); simpl; [|apply returned_throw_error].
      apply returned_bind_none; intros; apply Hrest. }
    destruct (String.eqb k "and").
    { destruct (raw_truthy v); [|apply Hrest].
      destruct v; try apply returned_throw_error.
      apply returned_bind_none; intros; apply Hrest. }
    destruct (String.eqb k "not").
    { destruct (raw_truthy v); [|apply Hrest].
      apply returned_bind_none; intros; apply Hrest. }
    apply returned_throw_error.
Qed.

(** X11. An object with a key other than [or], [and] and [not] never compiles,
    wherever the key stands and whatever the other keys hold; neither does
    the object without keys. *)
Theorem unknown_condition_key_is_rejected
    (path : string) (props : list (string * raw)) :
  (exists key value, In (key, value) props
                     /\ key <> "or" /\ key <> "and" /\ key <> "not") ->
  returned (compileCondition path (RObj props)) = None
  /\ compileCondition path (RObj [])
     = Err (error path (RObj []) "Expected condition, but got empty thing").
Proof.
  intros H; split; [|reflexivity].
  rewrite compileCondition_object.
  pose proof (@compile_keys_unknown props H path []) as Hk.
  destruct (compile_keys compileCondition path props []);
    [discriminate | reflexivity | reflexivity].
Qed.

(* ================================================================== *)
(** ** Further properties of the rule compiler *)

Lemma index_string_is_no_group_key (i : nat) :
  index_string i <> "rules" /\ index_string i <> "oneOf".
Proof.
  unfold index_string. destruct (Nat.to_uint i); simpl; split; discriminate.
Qed.

Lemma assoc_indexed_none {A : Type} (key : string) (l : list A) (i : nat) :
  (forall j, index_string j <> key) -> assoc key (indexed i l) = None.
Proof.
  intros Hkey; revert i; induction l as [|a l IH]; intros i; simpl;
    [reflexivity|].
  destruct (String.eqb_spec key (index_string i)) as [->|_]; [|apply IH].
  now destruct (Hkey i).
Qed.

Lemma bind_ext {A B : Type} (m1 m2 : result A) (k1 k2 : A -> result B) :
  m1 = m2 -> (forall a, k1 a = k2 a) -> bind m1 k1 = bind m2 k2.
Proof. intros -> H. destruct m2; simpl; auto. Qed.

(** [compileRule] as the sequence of its steps. *)
Lemma compileRule_steps (taps : list handler) (path : string) (rule : raw)
    (refs : References) :
  compileRule taps path rule refs
  = (b <- call_hooks taps path rule
            (mkBuilder (defined_keys rule) (mkCompiledRule [] [] None None) refs) ;;
     b <- compile_group (compileRules taps) "rules"
            "Rule.rules must be an array of rules" set_rules path rule b ;;
     b <- compile_group (compileRules taps) "oneOf"
            "Rule.oneOf must be an array of rules" set_oneOf path rule b ;;
     reject_unknown path rule b).
Proof.
  assert (forall (key message : string) set (b : builder),
            (forall j, index_string j <> key) ->
            (if has key (b_unhandledProperties b) then
               match rule with
               | RObj props =>
                   with_property key
                     (fun group =>
                        match group with
                        | RArr items =>
                            '(rs, refs) <- compile_rule_list (compileRule taps)
                                             (path ++ "." ++ key)%string items 0
                                             (b_refs b) ;;
                            Ok (mkBuilder (delete key (b_unhandledProperties b))
                                  (set rs (b_compiledRule b)) refs)
                        | _ => throw_error path group message
                        end)
                     (throw_error path RUndefined message) props
               | _ => throw_error path (raw_get rule key) message
               end
             else Ok b)
            = compile_group (compileRules taps) key message set path rule b)
    as Hgroup.
  { intros key message set b Hkey. unfold compile_group, compileRules.
    destruct (has key (b_unhandledProperties b)); [|reflexivity].
    destruct rule; try reflexivity.
    - unfold raw_get; cbn [entries].
      now rewrite (assoc_indexed_none _ _ Hkey).
    - unfold raw_get; cbn [entries].
      now rewrite (assoc_indexed_none _ _ Hkey).
    - rewrite with_property_assoc. unfold raw_get; cbn [entries].
      destruct (assoc key props) as [[]|]; reflexivity. }
  pose proof (fun b => Hgroup "rules" "Rule.rules must be an array of rules"
                         set_rules b
                         (fun j => proj1 (index_string_is_no_group_key j)))
    as Hrules.
  pose proof (fun b => Hgroup "oneOf" "Rule.oneOf must be an array of rules"
                         set_oneOf b
                         (fun j => proj2 (index_string_is_no_group_key j)))
    as HoneOf.
  clear Hgroup.
  destruct (call_hooks taps path rule
              (mkBuilder (defined_keys rule) (mkCompiledRule [] [] None None) refs))
    as [b|e|x] eqn:Hhooks.
  - cbn [bind].
    destruct rule; cbn [compileRule]; rewrite Hhooks; cbn [bind];
      (apply bind_ext; [exact (Hrules b) | intros b1]);
      (apply bind_ext; [exact (HoneOf b1) | intros b2]);
      reflexivity.
  - destruct rule; cbn [compileRule]; rewrite Hhooks; reflexivity.
  - destruct rule; cbn [compileRule]; rewrite Hhooks; reflexivity.
Qed.

Lemma compile_rule_list_filter
    (compileRule : string -> raw -> References
                   -> result (CompiledRule * References))
    (path : string) (rules : list raw) (i : nat) (refs : References) :
  compile_rule_list compileRule path rules i refs
  = compile_rule_list compileRule path (filter raw_truthy rules) i refs.
Proof.
  revert i refs; induction rules as [|rule rest IH]; intros i refs; simpl;
    [reflexivity|].
  destruct (raw_truthy rule) eqn:Ht; simpl; [|apply IH].
  rewrite Ht. apply bind_ext; [reflexivity|]. intros [r refs1].
  now rewrite IH.
Qed.

(** X12. [compileRules] drops the falsy entries of a rule list before it numbers
    the rules: the list compiles as the list of its truthy entries does, and
    a list of falsy entries compiles to no rule and leaves the references
    as they are. *)
Theorem falsy_rules_are_dropped
    (taps : list handler) (path : string) (rules : list raw)
    (refs : References) :
  compileRules taps path rules refs
  = compileRules taps path (filter raw_truthy rules) refs
  /\ (Forall (fun r => raw_truthy r = false) rules ->
      compileRules taps path rules refs = Ok ([], refs)).
Proof.
  split; [apply compile_rule_list_filter|].
  intros H. unfold compileRules. rewrite compile_rule_list_filter.
  replace (filter raw_truthy rules) with (@nil raw); [reflexivity|].
  induction H as [|r rest Hr _ IH]; simpl; [reflexivity|].
  now rewrite Hr.
Qed.







Lemma assoc_In {A : Type} (key : string) (l : list (string * A)) (a : A) :
  assoc key l = Some a -> In (key, a) l.
Proof.
  induction l as [|[k x] l IH]; simpl; [discriminate|].
  destruct (String.eqb_spec key k) as [->|_].
  - intros [= ->]; now left.
  - intros H; right; now apply IH.
Qed.

Lemma group_array_is_a_property (rule : raw) (key : string) (items : list raw) :
  key = "rules" \/ key = "oneOf" ->
  raw_get rule key = RArr items ->
  exists props, rule = RObj props /\ In (key, RArr items) props.
Proof.
  intros Hkey. unfold raw_get.
  assert (forall j, index_string j <> key) as Hidx.
  { intros j. destruct (index_string_is_no_group_key j), Hkey; congruence. }
  destruct rule; cbn [entries]; try (simpl; discriminate).
  - now rewrite (assoc_indexed_none _ _ Hidx).
  - now rewrite (assoc_indexed_none _ _ Hidx).
  - destruct (assoc key props) as [v|] eqn:Hv; [|discriminate].
    intros ->. exists props; split; [reflexivity | now apply assoc_In].
Qed.

Lemma compile_rule_list_engine_only (items : list raw) :
  Forall (fun rule => forall path refs,
            engine_only path refs (compileRule [] path rule refs)) items ->
  forall path i refs,
    engine_only_list path refs
      (compile_rule_list (compileRule []) path items i refs).
Proof.
  induction 1 as [|rule rest Hrule _ IH]; intros path i refs; simpl.
  - split; [constructor | reflexivity].
  - destruct (raw_truthy rule); [|apply IH].
    specialize (Hrule (path ++ "[" ++ index_string i ++ "]")%string refs).
    destruct (compileRule [] _ rule refs) as [[r refs1]|e|x]; simpl in *.
    + destruct Hrule as [Hr ->].
      specialize (IH path (S i) refs).
      destruct (compile_rule_list (compileRule []) path rest (S i) refs)
        as [[rs refs2]|e|x]; simpl in *; [|exact IH|exact I].
      destruct IH as [Hrs ->]. split; [now constructor | reflexivity].
    + eapply located_under_app; exact Hrule.
    + exact I.
Qed.

Lemma compile_group_engine_only (key message : string) set (path : string)
    (rule : raw) (refs : References) (b : builder) :
  (forall items, raw_get rule key = RArr items ->
     Forall (fun rule => forall path refs,
               engine_only path refs (compileRule [] path rule refs)) items) ->
  (forall rs r, Forall bare rs -> bare r -> bare (set rs r)) ->
  bare (b_compiledRule b) -> b_refs b = refs ->
  match compile_group (compileRules []) key message set path rule b with
  | Ok b' => bare (b_compiledRule b') /\ b_refs b' = refs
  | Err e => located_under path (err_path e)
  | Raise _ => True
  end.
Proof.
  intros Hitems Hset Hbare Hrefs. unfold compile_group.
  destruct (has key (b_unhandledProperties b)); [|now split].
  destruct (raw_get rule key);
    try (unfold throw_error; destruct (conversion_failure _); simpl;
         [exact I | apply located_under_refl]).
  pose proof (compile_rule_list_engine_only (Hitems _ eq_refl)
                (path ++ "." ++ key)%string 0 (b_refs b)) as H.
  unfold compileRules.
  destruct (compile_rule_list (compileRule []) _ items 0 (b_refs b))
    as [[rs refs']|e|x]; simpl in *.
  - destruct H as [Hrs ->]. split; [now apply Hset | exact Hrefs].
  - eapply located_under_app; exact H.
  - exact I.
Qed.

Lemma bare_set_rules (rs : list CompiledRule) (r : CompiledRule) :
  Forall bare rs -> bare r -> bare (set_rules rs r).
Proof.
  intros Hrs Hr; destruct Hr as [subRules oneOfRules Hs Ho].
  unfold set_rules; simpl. now constructor.
Qed.

Lemma bare_set_oneOf (rs : list CompiledRule) (r : CompiledRule) :
  Forall bare rs -> bare r -> bare (set_oneOf rs r).
Proof.
  intros Hrs Hr; destruct Hr as [subRules oneOfRules Hs Ho].
  unfold set_oneOf; simpl. now constructor.
Qed.

Lemma compileRule_engine_only (rule : raw) :
  (forall path refs, engine_only path refs (compileRule [] path rule refs))
  /\ match rule with
     | RArr items =>
         Forall (fun rule => forall path refs,
                   engine_only path refs (compileRule [] path rule refs)) items
     | _ => True
     end.
Proof.
  assert (forall rule : raw,
            (forall key items,
                key = "rules" \/ key = "oneOf" ->
                raw_get rule key = RArr items ->
                Forall (fun rule => forall path refs,
                          engine_only path refs (compileRule [] path rule refs))
                       items) ->
            forall path refs,
              engine_only path refs (compileRule [] path rule refs)) as Hstep.
  { clear rule; intros rule Hgroups path refs.
    rewrite compileRule_steps; cbn [call_hooks bind].
    pose proof (@compile_group_engine_only "rules"
                  "Rule.rules must be an array of rules" set_rules path rule refs
                  (mkBuilder (defined_keys rule)
                             (mkCompiledRule [] [] None None) refs)
                  (fun items => Hgroups "rules" items (or_introl eq_refl))
                  bare_set_rules
                  (bare_rule None None (Forall_nil _) (Forall_nil _))
                  eq_refl) as H1.
    destruct (compile_group (compileRules []) "rules" _ set_rules path rule _)
      as [b1|e|x]; cbn [bind]; [|exact H1|exact I].
    destruct H1 as [Hb1 Hr1].
    pose proof (@compile_group_engine_only "oneOf"
                  "Rule.oneOf must be an array of rules" set_oneOf path rule refs
                  b1
                  (fun items => Hgroups "oneOf" items (or_intror eq_refl))
                  bare_set_oneOf Hb1 Hr1) as H2.
    destruct (compile_group (compileRules []) "oneOf" _ set_oneOf path rule b1)
      as [b2|e|x]; cbn [bind]; [|exact H2|exact I].
    destruct H2 as [Hb2 Hr2]. unfold reject_unknown.
    destruct (b_unhandledProperties b2); simpl; [now split|].
    unfold throw_error; destruct (conversion_failure rule); simpl;
      [exact I | apply located_under_refl]. }
  induction rule as [items IH | props IH | r Hr] using raw_nested_ind.
  - assert (Forall (fun rule => forall path refs,
                      engine_only path refs (compileRule [] path rule refs))
                   items) as Hitems.
    { eapply Forall_impl; [|exact IH]. now intros a [Ha _]. }
    split; [|exact Hitems].
    apply Hstep. intros key items' Hkey Hget.
    destruct (group_array_is_a_property _ Hkey Hget) as (props & [=] & _).
  - split; [|exact I].
    apply Hstep. intros key items' Hkey Hget.
    destruct (group_array_is_a_property _ Hkey Hget) as (props' & [= <-] & Hin).
    rewrite Forall_forall in IH. exact (proj2 (IH _ Hin)).
  - split; [|destruct r; try exact I; discriminate].
    apply Hstep. intros key items' Hkey Hget.
    destruct (group_array_is_a_property _ Hkey Hget) as (props & -> & _).
    discriminate.
Qed.

Lemma bare_adds_no_effect (data : obj) (rule : CompiledRule) :
  bare rule -> outEffects (rule_run data rule) = [].
Proof.
  induction rule as [conds effs subRules oneOfRules IHs IHo]
    using CompiledRule_nested_ind.
  intros Hbare. inversion Hbare as [s o Hs Ho]; subst.
  assert (forall children,
            Forall (fun r => bare r -> outEffects (rule_run data r) = [])
                   children ->
            Forall bare children ->
            forall st, outEffects (exec_all (execRule data) children st)
                       = outEffects st) as Hall.
  { intros children H1 H2 st. rewrite exec_all_runs; simpl.
    replace (flat_map (fun r => outEffects (rule_run data r)) children)
      with (@nil Effect); [apply app_nil_r|].
    induction H1 as [|r rest Hr _ IH]; simpl; [reflexivity|].
    inversion H2; subst. rewrite Hr by assumption. now apply IH. }
  assert (forall children,
            Forall (fun r => bare r -> outEffects (rule_run data r) = [])
                   children ->
            Forall bare children ->
            forall st, outEffects (exec_first (execRule data) children st)
                       = outEffects st) as Hfirst.
  { intros children H1 H2.
    induction H1 as [|r rest Hr _ IH]; intros st; simpl; [reflexivity|].
    inversion H2; subst.
    rewrite execRule_run. cbn [fst snd].
    assert (outEffects (extend st (rule_run data r)) = outEffects st) as Hst.
    { simpl. rewrite Hr by assumption. apply app_nil_r. }
    destruct (matches data r); [exact Hst|].
    rewrite IH by assumption. exact Hst. }
  unfold rule_run; simpl.
  destruct subRules as [sub|], oneOfRules as [one|]; simpl in *;
    repeat first [ rewrite (Hfirst _ (IHo _ eq_refl)) by assumption
                 | rewrite (Hall _ (IHs _ eq_refl)) by assumption ];
    reflexivity.
Qed.

(** X15. Without handlers the engine adds nothing of its own: a rule set that
    compiles has the references it started with, none, and its [exec]
    returns no effect on any input record; and every error is located at
    or below the path of the rule set. *)
Theorem engine_alone_adds_nothing (ruleSet : list raw) :
  (forall rs, compile [] ruleSet = Ok rs ->
              references rs = []
              /\ forall data, ruleSet_exec rs data = [])
  /\ (forall e, compile [] ruleSet = Err e ->
                located_under "ruleSet" (err_path e)).
Proof.
  assert (Forall (fun rule => forall path refs,
                    engine_only path refs (compileRule [] path rule refs))
                 ruleSet) as Hrules.
  { apply Forall_forall. intros rule _. apply compileRule_engine_only. }
  pose proof (compile_rule_list_engine_only Hrules "ruleSet" 0 []) as H.
  unfold compile, compileRules.
  destruct (compile_rule_list (compileRule []) "ruleSet" ruleSet 0 [])
    as [[rules refs]|e0|x]; simpl in *.
  - destruct H as [Hbare ->]. split; [|discriminate].
    intros rs [= <-]; simpl. split; [reflexivity|].
    intros data. unfold exec. rewrite exec_all_runs; simpl.
    induction Hbare as [|r rest Hr _ IH]; simpl; [reflexivity|].
    now rewrite (bare_adds_no_effect data Hr), IH.
  - split; [discriminate|]. now intros e [= <-].
  - split; discriminate.
Qed.

(* ================================================================== *)
(** ** Further properties of the executor *)

Section Executor_order.

Variable data : obj.

Lemma exec_first_tried (children : list CompiledRule) (st : store) :
  exec_first (execRule data) children st
  = extend st (runs data (tried data children)).
Proof.
  revert st; induction children as [|c rest IH]; intros st; simpl.
  - symmetry; apply extend_empty_r.
  - rewrite execRule_run. destruct (matches data c) eqn:Hc.
    + cbn [fst snd]. f_equal.
      apply store_eq; simpl; now rewrite app_nil_r.
    + now rewrite IH, extend_assoc, runs_cons.
Qed.

Lemma tried_effects (children : list CompiledRule) :
  outEffects (runs data (tried data children))
  = match find (matches data) children with
    | Some c => outEffects (rule_run data c)
    | None => []
    end.
Proof.
  induction children as [|c rest IH]; simpl; [reflexivity|].
  destruct (matches data c) eqn:Hc; simpl.
  - apply app_nil_r.
  - rewrite (no_match_no_effect _ _ Hc). exact IH.
Qed.

(** X16. What a rule whose conditions pass adds, in order: its own effects
    (every static effect, and every effect that a generated effect returns
    on the input record), then what each child of [rules] adds, then what
    the children of [oneOf] add up to the first on which [execRule] returns
    [true].  Its trace is the entry into the rule, the tests of its
    conditions, the calls of its generated effects, and the traces of the
    children executed, in that order. *)
Theorem passing_rule_adds_in_order (rule : CompiledRule) :
  all_pass data (conditions rule) = true ->
  rule_run data rule
  = extend
      (mkStore (produced data (effects rule))
               (Enter rule :: tests data (conditions rule)
                  ++ generator_calls (effects rule)))
      (extend (runs data (group (rules rule)))
              (runs data (tried data (group (oneOf rule)))))
  /\ outEffects (rule_run data rule)
     = produced data (effects rule)
       ++ flat_map (fun r => outEffects (rule_run data r)) (group (rules rule))
       ++ match find (matches data) (group (oneOf rule)) with
          | Some c => outEffects (rule_run data c)
          | None => []
          end.
Proof.
  intros Hpass.
  assert (rule_run data rule
          = extend
              (mkStore (produced data (effects rule))
                       (Enter rule :: tests data (conditions rule)
                          ++ generator_calls (effects rule)))
              (extend (runs data (group (rules rule)))
                      (runs data (tried data (group (oneOf rule))))))
    as Hrun.
  { unfold rule_run. rewrite execRule_unfold, Hpass. cbn [snd].
    assert (before_oneOf data rule empty_store
            = extend
                (mkStore (produced data (effects rule))
                         (Enter rule :: tests data (conditions rule)
                            ++ generator_calls (effects rule)))
                (runs data (group (rules rule)))) as Hbefore.
    { unfold before_oneOf.
      rewrite eval_conditions_all_pass by exact Hpass. cbn [snd].
      rewrite push_effects_spec.
      destruct (rules rule) as [children|]; cbn [group].
      - rewrite exec_all_runs. reflexivity.
      - symmetry. apply extend_empty_r. }
    rewrite Hbefore.
    destruct (oneOf rule) as [children|]; cbn [group].
    - rewrite exec_first_tried. apply extend_assoc.
    - cbn [tried]. change (runs data []) with empty_store.
      now rewrite (extend_empty_r (runs data (group (rules rule)))). }
  split; [exact Hrun|].
  rewrite Hrun. cbn [extend outEffects].
  now rewrite tried_effects.
Qed.

(** X17. Rule sets compose by concatenation: the effects of two lists of rules
    put end to end are the effects of the first followed by those of the
    second, on every input record. *)
Theorem exec_of_appended_rules (l1 l2 : list CompiledRule) :
  exec data (l1 ++ l2) = exec data l1 ++ exec data l2.
Proof.
  unfold exec. rewrite !exec_all_runs, !extend_empty_l, runs_app.
  reflexivity.
Qed.

Lemma walk_undefined (p : list string) : walk p VUndefined = VUndefined.
Proof. destruct p; reflexivity. Qed.

Lemma walk_app (p1 p2 : list string) (current : value) :
  walk (p1 ++ p2) current = walk p2 (walk p1 current).
Proof.
  revert current; induction p1 as [|k p1 IH]; intros current; simpl;
    [reflexivity|].
  destruct (truthy current && typeof_object current
            && hasOwnProperty current k); [apply IH|].
  symmetry; apply walk_undefined.
Qed.

(** X18. On an own property the two shapes of a path agree: the string path and
    the array path of that one name resolve alike, to the own value, which
    hides a property of that name on the prototype chain.  An array path
    is walked segment by segment: a path that goes through an own property
    holding an object resolves as the rest of the path does in that
    object. *)
Theorem own_properties_resolve_alike (k : string) (v : value) :
  assoc k (own_props data) = Some v ->
  resolve data (Single k) = resolve data (Multi [k])
  /\ resolve data (Single k) = (if is_defined v then Some v else None)
  /\ (forall o rest, v = VObj o ->
        resolve data (Multi (k :: rest)) = resolve o (Multi rest))
  /\ (forall p1 p2 current,
        walk (p1 ++ p2) current = walk p2 (walk p1 current)).
Proof.
  intros Hown. destruct data as [own proto]; simpl in Hown.
  assert (resolve (Obj own proto) (Single k)
          = if is_defined v then Some v else None) as Hsingle.
  { unfold resolve; simpl. now rewrite Hown. }
  split; [|split; [exact Hsingle|split]].
  - rewrite Hsingle. unfold resolve; simpl. now rewrite Hown.
  - intros o rest ->. unfold resolve; simpl. now rewrite Hown.
  - apply walk_app.
Qed.

End Executor_order.

(* ================================================================== *)
(** ** The further statements at sample inputs *)

Lemma combineConditionsAnd_all_witness :
  let conditions :=
    [mkCondition false (fun v => match v with VStr t => startsWith t "a" | _ => false end);
     mkCondition true (fun v => match v with VStr t => String.eqb t "" | _ => false end)] in
  conditions <> []
  /\ (cond_matchWhenEmpty (combineConditionsAnd conditions) = true
      <-> forall c, In c conditions -> cond_matchWhenEmpty c = true).
Proof.
  intros conditions.
  assert (conditions <> []) as H by discriminate.
  split; [exact H|].
  exact (proj2 (proj1 (@combineConditionsAnd_all conditions H))).
Defined.

Lemma array_condition_is_or_witness :
  exists ca cb,
    Forall2 compiles_to [RStr "a"; RStr "b"] [ca; cb]
    /\ compileCondition "ruleSet[0].test" (RArr [RStr "a"; RStr "b"])
       = Ok (combineConditionsOr [ca; cb])
    /\ (cond_fn (combineConditionsOr [ca; cb]) (VStr "bc") = true
        <-> exists ci, In ci [ca; cb] /\ cond_fn ci (VStr "bc") = true).
Proof.
  do 2 eexists.
  match goal with
  | |- Forall2 ?R ?l ?cs /\ _ => assert (Forall2 R l cs) as H
  end.
  { constructor; [exists "p"; reflexivity|].
    constructor; [exists "p"; reflexivity | constructor]. }
  split; [exact H|].
  destruct (array_condition_is_or "ruleSet[0].test" [RStr "a"; RStr "b"])
    as (Hcompile & Hor & _).
  split.
  - apply Hcompile. eexists; split; [exact H | reflexivity].
  - exact (Hor _ (VStr "bc") H).
Defined.

Lemma and_key_is_and_witness :
  compileCondition "ruleSet[0].test" (RObj [("and", RArr [])])
  = Err (error "ruleSet[0].test" (RObj [("and", RArr [])])
           "Expected condition, but got empty thing")
  /\ exists ca cb,
       Forall2 compiles_to [RStr "a"; RStr "ab"] [ca; cb]
       /\ (cond_fn (combineConditionsAnd [ca; cb]) (VStr "abc") = true
           <-> forall ci, In ci [ca; cb] -> cond_fn ci (VStr "abc") = true).
Proof.
  split.
  - exact (proj2 (proj2 (and_key_is_and "ruleSet[0].test" [])) eq_refl).
  - do 2 eexists.
    match goal with
    | |- Forall2 ?R ?l ?cs /\ _ => assert (Forall2 R l cs) as H
    end.
    { constructor; [exists "p"; reflexivity|].
      constructor; [exists "p"; reflexivity | constructor]. }
    split; [exact H|].
    refine (proj1 (proj2 (and_key_is_and "ruleSet[0].test" [RStr "a"; RStr "ab"]))
              _ (VStr "abc") _ H).
    discriminate.
Defined.

Lemma matchWhenEmpty_is_verdict_on_empty_string_witness :
  exists c,
    compileCondition "ruleSet[0].exclude"
      (RObj [("not", RArr [RStr "a"; RRegExp (fun s => String.eqb s "")])])
    = Ok c
    /\ cond_matchWhenEmpty c = cond_fn c (VStr "").
Proof.
  eexists. split; [reflexivity|].
  apply (@matchWhenEmpty_is_verdict_on_empty_string "ruleSet[0].exclude"
           (RObj [("not", RArr [RStr "a"; RRegExp (fun s => String.eqb s "")])])).
  reflexivity.
Defined.

Lemma compiled_condition_ignores_path_witness :
  exists c,
    compileCondition "ruleSet[0].test" (RArr [RStr "a"]) = Ok c
    /\ compileCondition "ruleSet[7].issuer" (RArr [RStr "a"]) = Ok c.
Proof.
  eexists. split; [reflexivity|].
  apply (proj2 (compiled_condition_ignores_path
                  "ruleSet[0].test" "ruleSet[7].issuer" (RArr [RStr "a"]))).
  reflexivity.
Defined.

Lemma condition_errors_are_located_witness :
  compileCondition "ruleSet[0].test"
    (RArr [RStr "a"; RObj [("and", RArr [RStr "b"; RThrowingFun])]])
  = Err (error "ruleSet[0].test[1].and[1]" RThrowingFun
           "Evaluation of condition function threw error")
  /\ exists steps,
       "ruleSet[0].test[1].and[1]" = ("ruleSet[0].test" ++ render steps)%string
       /\ leads_to
            (RArr [RStr "a"; RObj [("and", RArr [RStr "b"; RThrowingFun])]])
            steps RThrowingFun.
Proof.
  split; [reflexivity|].
  exact (@condition_errors_are_located "ruleSet[0].test"
           (RArr [RStr "a"; RObj [("and", RArr [RStr "b"; RThrowingFun])]])
           (error "ruleSet[0].test[1].and[1]" RThrowingFun
              "Evaluation of condition function threw error")
           eq_refl).
Defined.


Lemma double_not_is_identity_witness :
  RStr "x" <> RStr ""
  /\ exists c c'',
       compileCondition "ruleSet[0].test" (RStr "x") = Ok c
       /\ compileCondition "ruleSet[0].test"
            (RObj [("not", RObj [("not", RStr "x")])]) = Ok c''
       /\ (forall V, cond_fn c'' V = cond_fn c V)
       /\ cond_matchWhenEmpty c'' = cond_matchWhenEmpty c.
Proof.
  assert (RStr "x" <> RStr "") as H by discriminate.
  split; [exact H|].
  eexists.
  destruct (@double_not_is_identity
              "ruleSet[0].test" "ruleSet[0].test" (RStr "x") _ H eq_refl)
    as (c'' & Hc'' & Hfn & Hempty).
  exists c''. split; [reflexivity|]. split; [exact Hc''|]. split; assumption.
Defined.

Lemma unknown_condition_key_is_rejected_witness :
  In ("test", RStr "a") [("or", RArr []); ("test", RStr "a")]
  /\ returned (compileCondition "ruleSet[0].resource"
                 (RObj [("or", RArr []); ("test", RStr "a")])) = None.
Proof.
  assert (In ("test", RStr "a") [("or", RArr []); ("test", RStr "a")]) as H
    by (right; left; reflexivity).
  split; [exact H|].
  refine (proj1 (@unknown_condition_key_is_rejected "ruleSet[0].resource"
                   [("or", RArr []); ("test", RStr "a")] _)).
  exists "test", (RStr "a"). repeat split; [exact H | | | ]; discriminate.
Defined.

Lemma falsy_rules_are_dropped_witness :
  Forall (fun r => raw_truthy r = false) [RNull; RBool false; RUndefined]
  /\ compileRules [] "ruleSet" [RNull; RBool false; RUndefined] []
     = Ok ([], [])
  /\ compileRules [] "ruleSet" [RNull; RObj [("oneOf", RNum 1)]] []
     = compileRules [] "ruleSet" [RObj [("oneOf", RNum 1)]] [].
Proof.
  assert (Forall (fun r => raw_truthy r = false)
                 [RNull; RBool false; RUndefined]) as H
    by (repeat constructor).
  split; [exact H|]. split.
  - exact (proj2 (falsy_rules_are_dropped [] "ruleSet"
                    [RNull; RBool false; RUndefined] []) H).
  - exact (proj1 (falsy_rules_are_dropped [] "ruleSet"
                    [RNull; RObj [("oneOf", RNum 1)]] [])).
Defined.



Lemma engine_alone_adds_nothing_witness :
  (exists rs,
      compile [] [RObj [("rules", RArr [RObj []; RNull])]; RObj [("oneOf", RArr [])]]
      = Ok rs
      /\ references rs = []
      /\ ruleSet_exec rs record_x = [])
  /\ compile [] [RObj [("rules", RArr [RObj [("oneOf", RNum 1)]])]]
     = Err (error "ruleSet[0].rules[0]" (RNum 1)
              "Rule.oneOf must be an array of rules")
  /\ located_under "ruleSet" "ruleSet[0].rules[0]".
Proof.
  split; [|split; [reflexivity|]].
  - eexists. split; [reflexivity|].
    destruct (proj1 (engine_alone_adds_nothing
                       [RObj [("rules", RArr [RObj []; RNull])];
                        RObj [("oneOf", RArr [])]]) _ eq_refl) as [Hrefs Hexec].
    split; [exact Hrefs | exact (Hexec record_x)].
  - exact (proj2 (engine_alone_adds_nothing
                    [RObj [("rules", RArr [RObj [("oneOf", RNum 1)]])]])
             (error "ruleSet[0].rules[0]" (RNum 1)
                "Rule.oneOf must be an array of rules")
             eq_refl).
Defined.

Lemma passing_rule_adds_in_order_witness :
  let rule :=
    mkCompiledRule [test "x"]
      [Static (use "A"); Generated (fun _ => [use "G1"; use "G2"])]
      (Some [test_use "y" "B"; use_only "C"])
      (Some [test_use "y" "D"; use_only "E"; use_only "F"]) in
  all_pass record_x (conditions rule) = true
  /\ outEffects (rule_run record_x rule)
     = produced record_x (effects rule)
       ++ flat_map (fun r => outEffects (rule_run record_x r))
            (group (rules rule))
       ++ match find (matches record_x) (group (oneOf rule)) with
          | Some c => outEffects (rule_run record_x c)
          | None => []
          end
  /\ exec record_x [rule]
     = [use "A"; use "G1"; use "G2"; use "C"; use "E"].
Proof.
  intros rule. split; [reflexivity|].
  split; [|reflexivity].
  exact (proj2 (@passing_rule_adds_in_order record_x rule eq_refl)).
Defined.

Lemma own_properties_resolve_alike_witness :
  assoc "resource" (own_props record_x) = Some (VStr "x/index.js")
  /\ resolve record_x (Single "resource") = resolve record_x (Multi ["resource"])
  /\ resolve record_x (Single "resource") = Some (VStr "x/index.js").
Proof.
  split; [reflexivity|].
  destruct (@own_properties_resolve_alike record_x "resource"
              (VStr "x/index.js") eq_refl) as (Hsame & Hvalue & _).
  split; [exact Hsame | exact Hvalue].
Defined.
